(** * quote.py: quoting styles for lines of text

    A shallow embedding of the quoting functions of [quote.py]
    (literal, shell-always, shell, escape, c, c-maybe, pcre, csv), of the
    escape table they share and of the style registry, followed by the
    properties of these functions.

    A Python [str] is a sequence of Unicode code points; it is modelled as
    a list of code points ([N]).  The fragment of the [re] module and of the
    [str] methods that the program uses is embedded first, then the program
    itself, definition by definition, in the order of the source. *)

From Stdlib Require Import Ascii String List NArith Bool Lia.
Import ListNotations.
Local Open Scope N_scope.

(** ** Text *)

(** [ord(c)] of a one-character string. *)
Definition char : Type := N.

Definition str : Type := list char.

(** A Rocq string literal read as text: each byte is its code point.  The
    backslash is an ordinary character in a Rocq literal, as in a Python
    raw string. *)
Definition u (lit : string) : str :=
  map N_of_ascii (list_ascii_of_string lit).

Definition dq : char := 34.  (* double quote *)
Definition sq : char := 39.  (* single quote *)
Definition bs : char := 92.  (* backslash *)
Definition qm : char := 63.  (* question mark *)
Definition sp : char := 32.  (* space *)

Fixpoint str_eqb (a b : str) : bool :=
  match a, b with
  | [], [] => true
  | x :: a', y :: b' => (x =? y) && str_eqb a' b'
  | _, _ => false
  end.

(** [s.startswith(p)]. *)
Fixpoint starts_with (p s : str) : bool :=
  match p, s with
  | [], _ => true
  | _ :: _, [] => false
  | x :: p', y :: s' => (x =? y) && starts_with p' s'
  end.

(** [sub in s] for two strings: [sub] occurs in [s] as a substring. *)
Fixpoint str_in (sub s : str) : bool :=
  starts_with sub s ||
  match s with
  | [] => false
  | _ :: s' => str_in sub s'
  end.

(** [s.replace(old, new)]: the occurrences of [old] are replaced from left
    to right, without overlap.  [skip] counts the characters of an
    occurrence already replaced that are still to be passed over. *)
Fixpoint replace_from (old new : str) (skip : nat) (s : str) : str :=
  match s with
  | [] => []
  | ch :: s' =>
      match skip with
      | S k => replace_from old new k s'
      | O =>
          if starts_with old s
          then new ++ replace_from old new (length old - 1) s'
          else ch :: replace_from old new 0 s'
      end
  end.

Definition str_replace (s old new : str) : str :=
  match old with
  | [] => new ++ flat_map (fun ch => ch :: new) s
  | _ :: _ => replace_from old new 0 s
  end.

(** A dict with string keys, in the order of its literal. *)
Fixpoint dict_get {V : Type} (d : list (str * V)) (k : str) : option V :=
  match d with
  | [] => None
  | (k', v) :: d' => if str_eqb k k' then Some v else dict_get d' k
  end.

(** ** The fragment of [re] that the program uses

    Every regular expression of the program is a sequence of atoms that
    each match exactly one character: an escaped literal, a character set,
    or a parenthesised character set (a capturing group). *)
Module Re.

Inductive set_item : Type :=
| One (ch : char)
| Range (lo hi : char).

Record cset : Type := { negated : bool; items : list set_item }.

Definition in_item (ch : char) (i : set_item) : bool :=
  match i with
  | One d => ch =? d
  | Range lo hi => (lo <=? ch) && (ch <=? hi)
  end.

Definition in_cset (ch : char) (cs : cset) : bool :=
  xorb (negated cs) (existsb (in_item ch) (items cs)).

Inductive atom : Type :=
| Lit (ch : char)
| Set_ (cs : cset)
| Group (cs : cset).

Definition regex : Type := list atom.

(** The match object of a successful match: the text of its groups, in
    order.  A group of this fragment captures one character. *)
Definition match_object : Type := list char.

(** [m.group(n)], n >= 1.  (Python raises IndexError for a group the
    pattern does not have; here that is the empty text.  No replacement
    of the program refers to such a group.) *)
Definition group (n : nat) (m : match_object) : str :=
  match nth_error m (n - 1) with
  | Some ch => [ch]
  | None => []
  end.

(** Match the whole of [r] at the start of [s]. *)
Fixpoint match_at (r : regex) (s : str) : option match_object :=
  match r with
  | [] => Some []
  | a :: r' =>
      match s with
      | [] => None
      | ch :: s' =>
          match a with
          | Lit d => if ch =? d then match_at r' s' else None
          | Set_ cs => if in_cset ch cs then match_at r' s' else None
          | Group cs =>
              if in_cset ch cs
              then option_map (cons ch) (match_at r' s')
              else None
          end
      end
  end.

(** [re.search(r, s)], used for its truth value only: is there a match
    at some position of [s]? *)
Fixpoint search (r : regex) (s : str) : bool :=
  match match_at r s with
  | Some _ => true
  | None =>
      match s with
      | [] => false
      | _ :: s' => search r s'
      end
  end.

(** A replacement template such as [r'\\\1']. *)
Inductive template_item : Type :=
| TChar (ch : char)
| TGroup (n : nat).

Definition template : Type := list template_item.

Definition expand (t : template) (m : match_object) : str :=
  flat_map (fun i => match i with
                     | TChar ch => [ch]
                     | TGroup n => group n m
                     end) t.

(** [re.sub(r, repl, s)] for a regex of at least one atom: matches are
    taken leftmost first and do not overlap; [repl] is applied to each
    match object and the text between matches is copied.  A match spans
    [length r] characters; [skip] counts those still to be passed
    over. *)
Fixpoint sub_from (r : regex) (repl : match_object -> str)
    (skip : nat) (s : str) : str :=
  match s with
  | [] => []
  | ch :: s' =>
      match skip with
      | S k => sub_from r repl k s'
      | O =>
          match match_at r s with
          | Some m => repl m ++ sub_from r repl (length r - 1) s'
          | None => ch :: sub_from r repl 0 s'
          end
      end
  end.

Definition sub (r : regex) (repl : match_object -> str) (s : str) : str :=
  sub_from r repl 0 s.

End Re.

(** ** Number formatting *)

(** The octal digits of [n], most significant first, by repeated division
    by 8.  [fuel] bounds the number of digits. *)
Fixpoint octal_digits (fuel : nat) (n : N) : str :=
  match fuel with
  | O => []
  | S f =>
      if n <? 8 then [48 + n]
      else octal_digits f (n / 8) ++ [48 + n mod 8]
  end.

(** ['{:o}'.format(n)]: a number has no more octal digits than bits. *)
Definition format_o (n : N) : str :=
  octal_digits (S (N.to_nat (N.log2 n))) n.

(** ['{:03o}'.format(n)]: padded with zeros on the left to width 3. *)
Definition format_03o (n : N) : str :=
  let d := format_o n in
  repeat 48 (3 - length d) ++ d.

(** ** quote.py *)

(** The dict [simple_escape_sequence].  Its keys are written in the source
    as ordinary (non-raw) Python literals and its values as raw literals.
    Python has no escape sequence [\?]: the literal ['\?'] is the
    two-character string backslash, question mark. *)
Definition simple_escape_sequence : list (str * str) :=
  [ ([7],    u "\a");   (* alert *)
    ([8],    u "\b");   (* backspace *)
    ([9],    u "\t");   (* horizontal tab *)
    ([10],   u "\n");   (* new line *)
    ([11],   u "\v");   (* vertical tab *)
    ([12],   u "\f");   (* form feed *)
    ([13],   u "\r");   (* carriage return *)
    ([dq],   [bs; dq]); (* double quote *)
    ([sq],   u "\'");   (* single quote *)
    (u "\?", u "\?");   (* question mark *)
    ([bs],   u "\\")    (* backslash *)
  ].

(** [escape_char_to_octal(c)], for a one-character string [c] ([ord]
    accepts no other).  The membership test compares the string [c] with
    the keys of the dict. *)
Definition escape_char_to_octal (c : char) : str :=
  match dict_get simple_escape_sequence [c] with
  | Some mnemonic => mnemonic
  | None => bs :: format_03o c
  end.

Definition literal (s : str) : str := s.

Definition shell_always (s : str) : str :=
  [sq] ++ str_replace s [sq] (u "'\''") ++ [sq].

(** The pattern of [shell]: one character set, holding tab, newline,
    space, the double quote, and # $ % & ' ( ) * ; < = > ? [ \ ` | ~ *)
Definition shell_pattern : Re.regex :=
  [ Re.Set_ {| Re.negated := false;
               Re.items := map Re.One
                 ([9; 10; sp; dq] ++ u "#$%&'()*;<=>?[" ++ [bs] ++ u "`|~") |} ].

Definition shell (s : str) : str :=
  if Re.search shell_pattern s then shell_always s else s.

(** The set [[^\x20-\x7E]]: the pattern is not a raw literal, so the set
    is the complement of the range from space to tilde. *)
Definition not_printable_ascii : Re.cset :=
  {| Re.negated := true; Re.items := [Re.Range 32 126] |}.

(** [r'\\\1']. *)
Definition backslash_group1 : Re.template := [Re.TChar bs; Re.TGroup 1].

(** The inner function [replacement2] of [escape] and of [c]:
    [escape_char_to_octal(match_object.group(1))].  Group 1 holds one
    character. *)
Definition replacement2 (m : Re.match_object) : str :=
  flat_map escape_char_to_octal (Re.group 1 m).

Definition escape (s : str) : str :=
  (* Escape spaces and backslashes. *)
  let pattern := [ Re.Group {| Re.negated := false;
                               Re.items := [Re.One sp; Re.One bs] |} ] in
  let replacement := backslash_group1 in
  let s := Re.sub pattern (Re.expand replacement) s in
  (* Escape non-printable characters. *)
  let pattern2 := [ Re.Group not_printable_ascii ] in
  let s := Re.sub pattern2 replacement2 s in
  s.

(** The trigraph pattern of [c] and [c_maybe]: two escaped question marks,
    then a group holding the set ! ' ( ) - / < = > *)
Definition trigraph_pattern : Re.regex :=
  [ Re.Lit qm; Re.Lit qm;
    Re.Group {| Re.negated := false;
                Re.items := map Re.One (u "!'()-/<=>") |} ].

(** [r'?\\?\1']. *)
Definition trigraph_replacement : Re.template :=
  [Re.TChar qm; Re.TChar bs; Re.TChar qm; Re.TGroup 1].

Definition c (s : str) : str :=
  (* Escape double quotes and backslashes. *)
  let pattern := [ Re.Group {| Re.negated := false;
                               Re.items := [Re.One dq; Re.One bs] |} ] in
  let replacement := backslash_group1 in
  let s := Re.sub pattern (Re.expand replacement) s in
  (* Escape non-printable characters. *)
  let pattern2 := [ Re.Group not_printable_ascii ] in
  let s := Re.sub pattern2 replacement2 s in
  (* Escape the second question mark of what would be a trigraph. *)
  let pattern3 := trigraph_pattern in
  let replacement3 := trigraph_replacement in
  let s := Re.sub pattern3 (Re.expand replacement3) s in
  (* Surround the result with double quotes. *)
  [dq] ++ s ++ [dq].

Definition c_maybe (s : str) : str :=
  let pattern := [ Re.Set_ {| Re.negated := false;
                              Re.items := [Re.One dq; Re.One bs] |} ] in
  let pattern2 := [ Re.Set_ not_printable_ascii ] in
  let pattern3 := trigraph_pattern in
  if Re.search pattern s || Re.search pattern2 s || Re.search pattern3 s
  then c s
  else s.

Definition pcre (s : str) : str :=
  let pattern :=
    [ Re.Group {| Re.negated := true;
                  Re.items := [Re.Range 65 90; Re.Range 97 122;
                               Re.Range 48 57; Re.One 95] |} ] in
  let replacement := backslash_group1 in
  Re.sub pattern (Re.expand replacement) s.

(** [string.whitespace]: space, tab, linefeed, return, vertical tab,
    formfeed. *)
Definition whitespace : str := [sp; 9; 10; 13; 11; 12].

(** [csv(s, field_separator, record_separator)].  [s[0]] and [s[-1]] are
    read only when [len(s) > 0]. *)
Definition csv (s field_separator record_separator : str) : str :=
  if str_in [dq] s then
    [dq] ++ str_replace s [dq] [dq; dq] ++ [dq]
  else if str_in field_separator s
          || str_in record_separator s
          || match s with
             | [] => false
             | first :: _ =>
                 str_in [first] whitespace
                 || str_in [last s first] whitespace
             end
  then [dq] ++ s ++ [dq]
  else s.

(** [csv(s)]: the separators take their default values. *)
Definition csv_default (s : str) : str := csv s (u ",") [10].

Definition quoting_style_to_function_map : list (str * (str -> str)) :=
  [ (u "literal",      literal);
    (u "shell-always", shell_always);
    (u "shell",        shell);
    (u "escape",       escape);
    (u "c",            c);
    (u "c-maybe",      c_maybe);
    (u "pcre",         pcre);
    (u "csv",          csv_default) ].

Definition quote (s quoting_style : str) : str :=
  match dict_get quoting_style_to_function_map quoting_style with
  | Some f => f s
  | None => s
  end.

(** ** The rest of quote.py *)

(** One uppercase hexadecimal digit. *)
Definition hex_digit (d : N) : char :=
  if d <? 10 then 48 + d else 55 + d.

(** The hexadecimal digits of [n], most significant first, by repeated
    division by 16.  [fuel] bounds the number of digits. *)
Fixpoint hex_digits (fuel : nat) (n : N) : str :=
  match fuel with
  | O => []
  | S f =>
      if n <? 16 then [hex_digit n]
      else hex_digits f (n / 16) ++ [hex_digit (n mod 16)]
  end.

(** ['{:X}'.format(n)]: a number has no more hexadecimal digits than
    bits. *)
Definition format_X (n : N) : str :=
  hex_digits (S (N.to_nat (N.log2 n))) n.

(** ['{:02X}'.format(n)]: padded with zeros on the left to width 2. *)
Definition format_02X (n : N) : str :=
  let d := format_X n in
  repeat 48 (2 - length d) ++ d.

(** [escape_char_to_hexadecimal(c)], for a one-character string [c]. *)
Definition escape_char_to_hexadecimal (c : char) : str :=
  match dict_get simple_escape_sequence [c] with
  | Some mnemonic => mnemonic
  | None => bs :: 120 :: format_02X c
  end.

(** The two functions that escape a character only when [c.isprintable()]
    is false.  The Unicode classification behind [str.isprintable] is not
    part of the program: it is a parameter. *)
Section NonPrintable.

Variable isprintable : char -> bool.

Definition escape_non_printable_char_to_octal (c : char) : str :=
  if isprintable c then [c] else escape_char_to_octal c.

Definition escape_non_printable_char_to_hexadecimal (c : char) : str :=
  if isprintable c then [c] else escape_char_to_hexadecimal c.

End NonPrintable.

(** [s.rstrip(chars)]: the trailing characters of [s] that occur in
    [chars] are removed. *)
Fixpoint str_rstrip (s chars : str) : str :=
  match s with
  | [] => []
  | ch :: t =>
      match str_rstrip t chars with
      | [] => if existsb (N.eqb ch) chars then [] else [ch]
      | r => ch :: r
      end
  end.

(** The pieces of [s] between the occurrences of [sep], which are taken
    from left to right without overlap; [skip] counts the characters of an
    occurrence still to be passed over. *)
Fixpoint split_from (sep : str) (skip : nat) (s : str) : list str :=
  match s with
  | [] => [[]]
  | ch :: t =>
      match skip with
      | S k => split_from sep k t
      | O =>
          if starts_with sep s
          then [] :: split_from sep (length sep - 1) t
          else match split_from sep 0 t with
               | piece :: pieces => (ch :: piece) :: pieces
               | [] => [[ch]]
               end
      end
  end.

(** [s.split(sep)]; an empty separator raises ValueError. *)
Definition str_split (s sep : str) : option (list str) :=
  match sep with
  | [] => None
  | _ :: _ => Some (split_from sep 0 s)
  end.

(** The nested function [quote_lines] of [main].  [quoting_style] and
    [delimiter] are the variables of [main] it reads; the result is the
    text it prints to standard output, line after line.  The lookup of the
    style comes before the loop; [None] is its KeyError. *)
Definition quote_lines (quoting_style delimiter : str) (lines : list str)
    : option str :=
  match dict_get quoting_style_to_function_map quoting_style with
  | None => None
  | Some quote_function =>
      Some (flat_map
              (fun line => quote_function (str_rstrip line delimiter)
                           ++ delimiter)
              lines)
  end.

(** The nested function [quote_file_data] of [main]: the data is split at
    the delimiter, and a last piece that is empty is deleted. *)
Definition quote_file_data (quoting_style delimiter file_data : str)
    : option str :=
  match str_split file_data delimiter with
  | None => None
  | Some lines =>
      let lines :=
        if Nat.eqb (length (last lines [])) 0 then removelast lines
        else lines in
      quote_lines quoting_style delimiter lines
  end.

(** [a <= b] on strings: the order of the code points, a prefix first. *)
Fixpoint str_leb (a b : str) : bool :=
  match a, b with
  | [], _ => true
  | _ :: _, [] => false
  | x :: a', y :: b' =>
      if x <? y then true
      else if y <? x then false
      else str_leb a' b'
  end.

Fixpoint insert_sorted (x : str) (l : list str) : list str :=
  match l with
  | [] => [x]
  | y :: l' => if str_leb x y then x :: l else y :: insert_sorted x l'
  end.

(** [sorted(l)] for a list of strings. *)
Definition sorted (l : list str) : list str :=
  fold_right insert_sorted [] l.

(** [x in l] for a list of strings [l]. *)
Definition list_in (x : str) (l : list str) : bool :=
  existsb (str_eqb x) l.

(** What [main] prints before it returns: the version, the help, or the
    two lines of [print_error(s)]. *)
Inductive message : Type :=
| VersionText
| HelpText
| ErrorText (s : str).

(** Where the first part of [main] ends: it prints a message and returns
    ([status] is the value returned, [None] for a plain return), or it
    goes on to quote the input with a style and a delimiter. *)
Inductive outcome : Type :=
| Returned (status : option nat) (printed : message)
| Proceed (quoting_style delimiter : str).

(** [main], from the loop over the options that [getopt] found to the
    validation of the style.  [linesep] is [os.linesep]. *)
Section Main.

Variable linesep : str.

Definition valid_quoting_styles : list str :=
  sorted (map fst quoting_style_to_function_map).

Definition default_quoting_style : str := u "literal".

Definition default_delimiter : str := linesep.

Fixpoint options_loop (quoting_style delimiter : str)
    (options : list (str * str)) : outcome :=
  match options with
  | [] =>
      (* Validate quoting_style. *)
      if negb (list_in quoting_style valid_quoting_styles)
      then Returned (Some 1%nat)
             (ErrorText (quoting_style ++ u " is not a valid quoting style."))
      else Proceed quoting_style delimiter
  | (option, value) :: rest =>
      if list_in option [u "-V"; u "--version"] then
        Returned None VersionText
      else if list_in option [u "-h"; u "--help"] then
        Returned None HelpText
      else if list_in option [u "-q"; u "--quoting-style"] then
        options_loop value delimiter rest
      else if list_in option [u "-0"; u "--null"] then
        options_loop quoting_style [0] rest
      else
        Returned (Some 1%nat)
          (ErrorText (u "Unhandled option '" ++ option ++ u "'."))
  end.

Definition configure (options : list (str * str)) : outcome :=
  options_loop default_quoting_style default_delimiter options.

End Main.

(** ** Reference notions used by the statements *)

(** The range 0x20-0x7E. *)
Definition printable_ascii (ch : char) : bool :=
  (32 <=? ch) && (ch <=? 126).

Definition in_printable_range (ch : char) : Prop := 32 <= ch <= 126.

(** Prefix with a backslash every character that satisfies [p]. *)
Definition prefix_backslash (p : char -> bool) (s : str) : str :=
  flat_map (fun ch => if p ch then [bs; ch] else [ch]) s.

(** Replace every character outside 0x20-0x7E with its escape. *)
Definition escape_outside_printable (s : str) : str :=
  flat_map (fun ch => if printable_ascii ch then [ch]
                      else escape_char_to_octal ch) s.

(** The escape of a character in the words of the specification
    (escapeToOctal), written without the functions of the program.  The
    eleven characters of the table of simple escape sequences have a
    mnemonic: the letter after the backslash for alert, backspace, tab,
    newline, vertical tab, form feed and carriage return, and the
    character itself for the two quotes, the question mark and the
    backslash. *)
Definition spec_mnemonic (ch : char) : option char :=
  if ch =? 7 then Some 97         (* alert: a *)
  else if ch =? 8 then Some 98    (* backspace: b *)
  else if ch =? 9 then Some 116   (* tab: t *)
  else if ch =? 10 then Some 110  (* newline: n *)
  else if ch =? 11 then Some 118  (* vertical tab: v *)
  else if ch =? 12 then Some 102  (* form feed: f *)
  else if ch =? 13 then Some 114  (* carriage return: r *)
  else if (ch =? dq) || (ch =? sq) || (ch =? qm) || (ch =? bs) then Some ch
  else None.

(** The number of octal digits of [n]: one for each three bits. *)
Definition octal_length (n : N) : nat := S (N.to_nat (N.log2 n / 3)).

(** The numeral of [n] in base 8 on [width] digits, most significant
    first: the digit of weight [8 ^ i] is [(n / 8 ^ i) mod 8]. *)
Definition octal_numeral (width : nat) (n : N) : str :=
  map (fun i => 48 + (n / 8 ^ N.of_nat i) mod 8) (rev (seq 0 width)).

(** The mnemonic, or a backslash and the octal digits of the code point,
    three of them at least. *)
Definition spec_escape_to_octal (ch : char) : str :=
  match spec_mnemonic ch with
  | Some m => [bs; m]
  | None => bs :: octal_numeral (Nat.max 3 (octal_length ch)) ch
  end.

(** Replace every character outside 0x20-0x7E with its octal escape. *)
Definition octal_escape_outside_printable (s : str) : str :=
  flat_map (fun ch => if printable_ascii ch then [ch]
                      else spec_escape_to_octal ch) s.

(** The characters that complete a trigraph after two question marks. *)
Definition trigraph_third (ch : char) : bool :=
  existsb (N.eqb ch) (u "!'()-/<=>").

(** Insert a backslash before the second question mark of each trigraph
    forming sequence, scanning from the left. *)
Fixpoint guard_trigraphs (s : str) : str :=
  match s with
  | [] => []
  | a :: t =>
      match t with
      | b :: x :: rest =>
          if (a =? qm) && (b =? qm) && trigraph_third x
          then [qm; bs; qm; x] ++ guard_trigraphs rest
          else a :: guard_trigraphs t
      | _ => a :: guard_trigraphs t
      end
  end.

(** Does [s] contain a trigraph forming sequence? *)
Fixpoint has_trigraph (s : str) : bool :=
  match s with
  | [] => false
  | a :: t =>
      match t with
      | b :: x :: _ => (a =? qm) && (b =? qm) && trigraph_third x
      | _ => false
      end || has_trigraph t
  end.

(** Does [s] need escaping as a C string literal? *)
Definition needs_c_escaping (s : str) : bool :=
  existsb (fun ch => (ch =? dq) || (ch =? bs) || negb (printable_ascii ch)) s
  || has_trigraph s.

(** The POSIX characters that need quoting: tab, newline, space, and
    the double quote, # $ % & ' ( ) * ; < = > ? [ backslash, backtick,
    bar and tilde. *)
Definition posix_special : list char :=
  [9; 10; 32; 34; 35; 36; 37; 38; 39; 40; 41; 42; 59; 60; 61; 62; 63;
   91; 92; 96; 124; 126].

Definition is_posix_special (ch : char) : bool :=
  existsb (N.eqb ch) posix_special.

(** ASCII letters, ASCII digits and the underscore. *)
Definition word_char (ch : char) : bool :=
  ((65 <=? ch) && (ch <=? 90)) || ((97 <=? ch) && (ch <=? 122))
  || ((48 <=? ch) && (ch <=? 57)) || (ch =? 95).

Definition is_whitespace (ch : char) : bool :=
  existsb (N.eqb ch) whitespace.

Definition begins_with_whitespace (s : str) : bool :=
  match s with
  | [] => false
  | first :: _ => is_whitespace first
  end.

Definition ends_with_whitespace (s : str) : bool :=
  match s with
  | [] => false
  | first :: _ => is_whitespace (last s first)
  end.

(** The number that a sequence of octal digits denotes. *)
Definition octal_value (d : str) : N :=
  fold_left (fun acc ch => 8 * acc + (ch - 48)) d 0.

(** The text between the first and the last character. *)
Definition body (s : str) : str := removelast (tl s).

(** How a POSIX shell reads a word made of quoted and unquoted parts
    (Shell Command Language, 2.2 Quoting).  Between single quotes every
    character stands for itself, up to the closing quote.  Outside quotes
    a backslash makes the next character stand for itself, except a
    newline, which is dropped with the backslash (line continuation); any
    other character that needs quoting is not part of a literal word, and
    reading stops with no result, as it does when the text ends inside
    quotes or on a backslash. *)
Module Sh.

Inductive state : Type := Unquoted | Escaped | SingleQuoted.

Fixpoint unquote_from (st : state) (s : str) : option str :=
  match s with
  | [] =>
      match st with
      | Unquoted => Some []
      | Escaped | SingleQuoted => None
      end
  | ch :: s' =>
      match st with
      | Unquoted =>
          if ch =? sq then unquote_from SingleQuoted s'
          else if ch =? bs then unquote_from Escaped s'
          else if is_posix_special ch then None
          else option_map (cons ch) (unquote_from Unquoted s')
      | Escaped =>
          if ch =? 10 then unquote_from Unquoted s'
          else option_map (cons ch) (unquote_from Unquoted s')
      | SingleQuoted =>
          if ch =? sq then unquote_from Unquoted s'
          else option_map (cons ch) (unquote_from SingleQuoted s')
      end
  end.

Definition unquote (s : str) : option str := unquote_from Unquoted s.

(** The word that the text of one argument stands for.  Empty text is no
    word at all: the empty word has to be written with quotes. *)
Definition read_word (s : str) : option str :=
  match s with
  | [] => None
  | _ :: _ => unquote s
  end.

End Sh.

(** ** Readers of the quoted text

    What the consumer of each style makes of the text: reference notions
    for the round trips. *)

(** The number that a sequence of uppercase hexadecimal digits denotes. *)
Definition hex_value (d : str) : N :=
  fold_left (fun acc ch => 16 * acc + (if ch <=? 57 then ch - 48 else ch - 55))
            d 0.

(** What [c] makes of one character, before the trigraphs are looked
    for. *)
Definition c_token (ch : char) : str :=
  if (ch =? dq) || (ch =? bs) then [bs; ch]
  else if printable_ascii ch then [ch]
  else escape_char_to_octal ch.

(** What [escape] makes of one character. *)
Definition escape_token (ch : char) : str :=
  if (ch =? sp) || (ch =? bs) then [bs; ch]
  else if printable_ascii ch then [ch]
  else escape_char_to_octal ch.

(** The character after the backslash of a C simple escape sequence, and
    the character the sequence stands for: a b t n v f r, the two quotes,
    the question mark and the backslash. *)
Definition c_simple_escape (e : char) : option char :=
  if e =? 97 then Some 7
  else if e =? 98 then Some 8
  else if e =? 116 then Some 9
  else if e =? 110 then Some 10
  else if e =? 118 then Some 11
  else if e =? 102 then Some 12
  else if e =? 114 then Some 13
  else if (e =? dq) || (e =? sq) || (e =? qm) || (e =? bs) then Some e
  else None.

Definition octal_digit_value (ch : char) : option N :=
  if (48 <=? ch) && (ch <=? 55) then Some (ch - 48) else None.

(** The escape sequence that begins [t], the text after a backslash: the
    character it stands for and the number of characters of [t] it spans.
    A simple escape is one character; an octal escape is one to three
    octal digits, as many as there are. *)
Definition decode_escape (simple : char -> option char) (t : str)
    : option (char * nat) :=
  match t with
  | [] => None
  | e :: t1 =>
      match simple e with
      | Some v => Some (v, 1%nat)
      | None =>
          match octal_digit_value e with
          | None => None
          | Some d1 =>
              match t1 with
              | [] => Some (d1, 1%nat)
              | e2 :: t2 =>
                  match octal_digit_value e2 with
                  | None => Some (d1, 1%nat)
                  | Some d2 =>
                      match t2 with
                      | [] => Some (8 * d1 + d2, 2%nat)
                      | e3 :: _ =>
                          match octal_digit_value e3 with
                          | None => Some (8 * d1 + d2, 2%nat)
                          | Some d3 => Some (64 * d1 + 8 * d2 + d3, 3%nat)
                          end
                      end
                  end
              end
          end
      end
  end.

(** How a C compiler reads a string literal: the trigraphs are replaced
    first (translation phase 1), then the characters between the double
    quotes are read, a backslash beginning an escape sequence.  The value
    of an octal escape has to fit an unsigned char: above 0o377 there is
    no result.  A character outside 0x20-0x7E, a double quote before the
    end or text after the closing quote gives no result either. *)
Module C.

Definition trigraph_char (x : char) : option char :=
  if x =? 61 then Some 35        (* ??= is # *)
  else if x =? 40 then Some 91   (* ??( is [ *)
  else if x =? 47 then Some 92   (* ??/ is \ *)
  else if x =? 41 then Some 93   (* ??) is ] *)
  else if x =? 39 then Some 94   (* ??' is ^ *)
  else if x =? 60 then Some 123  (* ??< is { *)
  else if x =? 33 then Some 124  (* ??! is | *)
  else if x =? 62 then Some 125  (* ??> is } *)
  else if x =? 45 then Some 126  (* ??- is ~ *)
  else None.

Fixpoint replace_trigraphs (s : str) : str :=
  match s with
  | [] => []
  | a :: t =>
      match t with
      | b :: x :: rest =>
          if (a =? qm) && (b =? qm)
          then match trigraph_char x with
               | Some r => r :: replace_trigraphs rest
               | None => a :: replace_trigraphs t
               end
          else a :: replace_trigraphs t
      | _ => a :: replace_trigraphs t
      end
  end.

(** The characters after the opening quote; [skip] counts the characters
    of an escape sequence still to be passed over. *)
Fixpoint read_from (skip : nat) (s : str) : option str :=
  match s with
  | [] => None
  | ch :: t =>
      match skip with
      | S k => read_from k t
      | O =>
          if ch =? dq then
            match t with
            | [] => Some []
            | _ :: _ => None
            end
          else if ch =? bs then
            match decode_escape c_simple_escape t with
            | Some (v, n) =>
                if v <=? 255 then option_map (cons v) (read_from n t)
                else None
            | None => None
            end
          else if printable_ascii ch then option_map (cons ch) (read_from 0 t)
          else None
      end
  end.

Definition read_literal (s : str) : option str :=
  match replace_trigraphs s with
  | [] => None
  | ch :: t => if ch =? dq then read_from 0 t else None
  end.

End C.

(** How text in the escape style is read back: a backslash begins a C
    escape sequence or stands before a space; a space that no backslash
    precedes separates words and gives no result, as does a character
    outside 0x20-0x7E. *)
Module Esc.

Definition simple (e : char) : option char :=
  if e =? sp then Some sp else c_simple_escape e.

Fixpoint unescape_from (skip : nat) (s : str) : option str :=
  match s with
  | [] =>
      match skip with
      | O => Some []
      | S _ => None
      end
  | ch :: t =>
      match skip with
      | S k => unescape_from k t
      | O =>
          if ch =? bs then
            match decode_escape simple t with
            | Some (v, n) => option_map (cons v) (unescape_from n t)
            | None => None
            end
          else if ch =? sp then None
          else if printable_ascii ch
               then option_map (cons ch) (unescape_from 0 t)
               else None
      end
  end.

Definition unescape (s : str) : option str := unescape_from 0 s.

End Esc.

(** The string that a PCRE pattern without metacharacters matches: a
    letter, a digit or an underscore stands for itself; a backslash before
    a character that is not a letter or a digit makes it stand for itself.
    Any other character, and a backslash before a letter or a digit, may
    have a special meaning: no result. *)
Module Pcre.

Definition alphanumeric (ch : char) : bool :=
  ((65 <=? ch) && (ch <=? 90)) || ((97 <=? ch) && (ch <=? 122))
  || ((48 <=? ch) && (ch <=? 57)).

Fixpoint literal_from (escaped : bool) (s : str) : option str :=
  match s with
  | [] => if escaped then None else Some []
  | ch :: t =>
      if escaped then
        if alphanumeric ch then None
        else option_map (cons ch) (literal_from false t)
      else if ch =? bs then literal_from true t
      else if word_char ch then option_map (cons ch) (literal_from false t)
      else None
  end.

Definition literal_of (s : str) : option str := literal_from false s.

End Pcre.

(** The last line of an input whose last piece is [tail]: none when the
    piece is empty. *)
Definition last_piece (tail : str) : list str :=
  match tail with
  | [] => []
  | _ :: _ => [tail]
  end.

(** [sep.join(pieces)]. *)
Fixpoint str_join (sep : str) (pieces : list str) : str :=
  match pieces with
  | [] => []
  | [piece] => piece
  | piece :: rest => piece ++ sep ++ str_join sep rest
  end.

(** How a CSV reader reads one record, by the grammar of RFC 4180.  The
    fields are separated by commas.  A field that is not quoted is made of
    TEXTDATA: the characters 0x20-0x7E but the double quote and the comma.
    A field that begins with a double quote runs to the closing double
    quote and is made of TEXTDATA, commas, carriage returns, line feeds
    and pairs of double quotes, a pair standing for one.  Anything else
    gives no result: another character, a double quote inside a field
    that is not quoted, text after a closing quote, an unclosed quote.
    Empty text is no record.  The result of [read_from] begins with the
    rest of the field being read. *)
Module Csv.

Inductive state : Type := FieldStart | Unquoted | Quoted | QuoteInQuoted.

Definition textdata (ch : char) : bool :=
  ((32 <=? ch) && (ch <=? 33)) || ((35 <=? ch) && (ch <=? 43))
  || ((45 <=? ch) && (ch <=? 126)).

Definition push (ch : char) (r : option (list str)) : option (list str) :=
  match r with
  | Some (field :: fields) => Some ((ch :: field) :: fields)
  | _ => None
  end.

Definition next_field (r : option (list str)) : option (list str) :=
  option_map (cons []) r.

Fixpoint read_from (st : state) (s : str) : option (list str) :=
  match s with
  | [] =>
      match st with
      | Quoted => None
      | FieldStart | Unquoted | QuoteInQuoted => Some [[]]
      end
  | ch :: t =>
      match st with
      | FieldStart =>
          if ch =? dq then read_from Quoted t
          else if ch =? 44 then next_field (read_from FieldStart t)
          else if textdata ch then push ch (read_from Unquoted t)
          else None
      | Unquoted =>
          if ch =? 44 then next_field (read_from FieldStart t)
          else if textdata ch then push ch (read_from Unquoted t)
          else None
      | Quoted =>
          if ch =? dq then read_from QuoteInQuoted t
          else if textdata ch || (ch =? 44) || (ch =? 13) || (ch =? 10)
               then push ch (read_from Quoted t)
               else None
      | QuoteInQuoted =>
          if ch =? dq then push dq (read_from Quoted t)
          else if ch =? 44 then next_field (read_from FieldStart t)
          else None
      end
  end.

Definition read_record (s : str) : option (list str) :=
  match s with
  | [] => None
  | _ :: _ => read_from FieldStart s
  end.

End Csv.

(** * Properties *)

(** ** Lists of characters *)

Section Lists.

Variables f g : char -> str.
Variables p q : char -> bool.

Lemma flat_map_unchanged (s : str) :
  (forall ch, In ch s -> f ch = [ch]) -> flat_map f s = s.
Proof.
  induction s as [|y s IH]; simpl; intros H; [reflexivity|].
  rewrite (H y (or_introl eq_refl)), IH; auto.
Qed.

Lemma flat_map_flat_map (s : str) :
  flat_map g (flat_map f s) = flat_map (fun ch => flat_map g (f ch)) s.
Proof.
  induction s as [|y s IH]; simpl; [reflexivity|].
  rewrite flat_map_app, IH. reflexivity.
Qed.

Lemma existsb_orb (s : str) :
  existsb (fun ch => p ch || q ch) s = existsb p s || existsb q s.
Proof.
  induction s as [|y s IH]; simpl; [reflexivity|].
  rewrite IH. destruct (p y), (q y), (existsb p s); reflexivity.
Qed.

Lemma existsb_ext (s : str) :
  (forall ch, p ch = q ch) -> existsb p s = existsb q s.
Proof.
  intros H. induction s as [|y s IH]; simpl; [reflexivity|].
  rewrite H, IH. reflexivity.
Qed.

Lemma existsb_false (s : str) :
  existsb p s = false -> forall ch, In ch s -> p ch = false.
Proof.
  intros H ch Hin. destruct (p ch) eqn:E; [|reflexivity].
  rewrite <- H. symmetry. apply existsb_exists. exists ch. auto.
Qed.

Lemma prefix_backslash_ext (s : str) :
  (forall ch, p ch = q ch) -> prefix_backslash p s = prefix_backslash q s.
Proof.
  intros H. apply flat_map_ext. intros ch. rewrite H. reflexivity.
Qed.

End Lists.

(** ** Strings and dicts *)

Lemma str_eqb_eq (a b : str) : str_eqb a b = true <-> a = b.
Proof.
  revert b; induction a as [|x a IH]; intros [|y b]; simpl;
    try (split; [discriminate | discriminate]); try tauto.
  rewrite andb_true_iff, N.eqb_eq, IH.
  split; [intros [-> ->]; reflexivity | intros H; inversion H; auto].
Qed.

(** For a one-character [sub], [sub in s] asks whether the character
    occurs in [s]. *)
Lemma str_in_single (a : char) (s : str) :
  str_in [a] s = existsb (N.eqb a) s.
Proof.
  induction s as [|y s IH]; simpl; [reflexivity|].
  rewrite IH, andb_true_r; reflexivity.
Qed.

(** Replacing a one-character [old] rewrites each occurrence in place. *)
Lemma str_replace_single (a : char) (new s : str) :
  str_replace s [a] new = flat_map (fun ch => if ch =? a then new else [ch]) s.
Proof.
  unfold str_replace.
  induction s as [|y s IH]; simpl; [reflexivity|].
  rewrite andb_true_r, N.eqb_sym, IH.
  destruct (y =? a); reflexivity.
Qed.

Section Dicts.

Context {V : Type}.
Variable d : list (str * V).

Lemma dict_get_value (k : str) (v : V) :
  dict_get d k = Some v -> In v (map snd d).
Proof.
  induction d as [|[k' v'] d' IH]; simpl; [discriminate|].
  destruct (str_eqb k k'); [intros [= ->]; left; reflexivity | auto].
Qed.

Lemma dict_get_missing (k : str) :
  ~ In k (map fst d) -> dict_get d k = None.
Proof.
  induction d as [|[k' v'] d' IH]; simpl; [reflexivity|].
  intros Hnot. destruct (str_eqb k k') eqn:E.
  - apply str_eqb_eq in E. subst. tauto.
  - apply IH. tauto.
Qed.

End Dicts.

(** ** Patterns of one character set *)

Section OneSet.

Variable cs : Re.cset.

(** Substitution rewrites each character of the set on its own. *)
Lemma sub_single_group (repl : Re.match_object -> str) (s : str) :
  Re.sub [Re.Group cs] repl s
  = flat_map (fun ch => if Re.in_cset ch cs then repl [ch] else [ch]) s.
Proof.
  unfold Re.sub.
  induction s as [|y s IH]; simpl; [reflexivity|].
  rewrite IH.
  destruct (Re.in_cset y cs); destruct s; reflexivity.
Qed.

Lemma search_single_set (s : str) :
  Re.search [Re.Set_ cs] s = existsb (fun ch => Re.in_cset ch cs) s.
Proof.
  induction s as [|y s IH]; simpl; [reflexivity|].
  rewrite <- IH.
  destruct (Re.in_cset y cs); destruct s; reflexivity.
Qed.

Lemma sub_backslash_group1 (s : str) :
  Re.sub [Re.Group cs] (Re.expand backslash_group1) s
  = prefix_backslash (fun ch => Re.in_cset ch cs) s.
Proof. apply sub_single_group. Qed.

End OneSet.

Lemma in_cset_not_printable (ch : char) :
  Re.in_cset ch not_printable_ascii = negb (printable_ascii ch).
Proof.
  unfold Re.in_cset, not_printable_ascii, printable_ascii; cbn.
  rewrite orb_false_r. reflexivity.
Qed.

Lemma replacement2_single (ch : char) :
  replacement2 [ch] = escape_char_to_octal ch.
Proof.
  unfold replacement2. cbn [Re.group nth_error Nat.sub flat_map].
  apply app_nil_r.
Qed.

Lemma sub_replacement2 (s : str) :
  Re.sub [Re.Group not_printable_ascii] replacement2 s
  = escape_outside_printable s.
Proof.
  rewrite sub_single_group. apply flat_map_ext. intros ch.
  rewrite in_cset_not_printable, replacement2_single.
  destruct (printable_ascii ch); reflexivity.
Qed.

(** ** Scanning for trigraphs *)

(** The scan moves on by one character or by three: induction to match. *)
Lemma trigraph_scan_ind (P : str -> Prop) :
  P [] ->
  (forall a t, P t ->
     (forall b x rest, t = b :: x :: rest -> P rest) -> P (a :: t)) ->
  forall s, P s.
Proof.
  intros Hnil Hcons s.
  enough (H : forall k, P (skipn k s)) by exact (H O).
  induction s as [|a t IH]; intros k.
  - destruct k; exact Hnil.
  - destruct k as [|k]; [|exact (IH k)].
    apply Hcons; [exact (IH O)|].
    intros b x rest ->. exact (IH 2%nat).
Qed.

Lemma has_trigraph_cons (a : char) (t : str) :
  has_trigraph (a :: t)
  = match t with
    | b :: x :: _ => (a =? qm) && (b =? qm) && trigraph_third x
    | _ => false
    end || has_trigraph t.
Proof. reflexivity. Qed.

Lemma guard_trigraphs_cons (a : char) (t : str) :
  guard_trigraphs (a :: t)
  = match t with
    | b :: x :: rest =>
        if (a =? qm) && (b =? qm) && trigraph_third x
        then [qm; bs; qm; x] ++ guard_trigraphs rest
        else a :: guard_trigraphs t
    | _ => a :: guard_trigraphs t
    end.
Proof. reflexivity. Qed.

Lemma match_at_trigraph (s : str) :
  Re.match_at trigraph_pattern s
  = match s with
    | a :: b :: x :: _ =>
        if (a =? qm) && (b =? qm) && trigraph_third x then Some [x] else None
    | _ => None
    end.
Proof.
  destruct s as [|a [|b [|x rest]]]; try reflexivity;
    unfold trigraph_pattern, Re.match_at.
  - destruct (a =? qm); reflexivity.
  - destruct (a =? qm), (b =? qm); reflexivity.
  - change (Re.in_cset x _) with (trigraph_third x).
    destruct (a =? qm), (b =? qm), (trigraph_third x); reflexivity.
Qed.

Lemma search_trigraph (s : str) :
  Re.search trigraph_pattern s = has_trigraph s.
Proof.
  induction s as [|a t IH]; [reflexivity|].
  change (Re.search trigraph_pattern (a :: t))
    with (match Re.match_at trigraph_pattern (a :: t) with
          | Some _ => true
          | None => Re.search trigraph_pattern t
          end).
  rewrite match_at_trigraph, IH, has_trigraph_cons.
  destruct t as [|b [|x rest]]; try reflexivity.
  destruct ((a =? qm) && (b =? qm) && trigraph_third x); reflexivity.
Qed.

Lemma sub_from_trigraph_cons (a : char) (t : str) :
  Re.sub_from trigraph_pattern (Re.expand trigraph_replacement) 0 (a :: t)
  = match t with
    | b :: x :: rest =>
        if (a =? qm) && (b =? qm) && trigraph_third x
        then [qm; bs; qm; x]
             ++ Re.sub_from trigraph_pattern
                  (Re.expand trigraph_replacement) 0 rest
        else a :: Re.sub_from trigraph_pattern
                    (Re.expand trigraph_replacement) 0 t
    | _ => a :: Re.sub_from trigraph_pattern
                  (Re.expand trigraph_replacement) 0 t
    end.
Proof.
  change (Re.sub_from trigraph_pattern (Re.expand trigraph_replacement) 0 (a :: t))
    with (match Re.match_at trigraph_pattern (a :: t) with
          | Some m => Re.expand trigraph_replacement m
                      ++ Re.sub_from trigraph_pattern
                           (Re.expand trigraph_replacement) 2 t
          | None => a :: Re.sub_from trigraph_pattern
                           (Re.expand trigraph_replacement) 0 t
          end).
  rewrite match_at_trigraph.
  destruct t as [|b [|x rest]]; try reflexivity.
  destruct ((a =? qm) && (b =? qm) && trigraph_third x); reflexivity.
Qed.

(** The third substitution of [c] is the trigraph guard. *)
Lemma sub_trigraph (s : str) :
  Re.sub trigraph_pattern (Re.expand trigraph_replacement) s
  = guard_trigraphs s.
Proof.
  unfold Re.sub.
  induction s as [|a t IHt IHrest] using trigraph_scan_ind; [reflexivity|].
  rewrite sub_from_trigraph_cons, guard_trigraphs_cons, IHt.
  destruct t as [|b [|x rest]]; try reflexivity.
  rewrite (IHrest b x rest eq_refl). reflexivity.
Qed.

Lemma guard_trigraphs_unchanged (s : str) :
  has_trigraph s = false -> guard_trigraphs s = s.
Proof.
  induction s as [|a t IHt _] using trigraph_scan_ind; [reflexivity|].
  rewrite has_trigraph_cons, guard_trigraphs_cons. intros Hno.
  apply orb_false_iff in Hno as [Hhere Hrest].
  rewrite (IHt Hrest).
  destruct t as [|b [|x rest]]; try reflexivity.
  rewrite Hhere. reflexivity.
Qed.

(** The guarded text begins with the character the text begins with. *)
Lemma guard_trigraphs_head (a : char) (t : str) :
  exists r, guard_trigraphs (a :: t) = a :: r.
Proof.
  rewrite guard_trigraphs_cons.
  destruct t as [|b [|x rest]]; try (eexists; reflexivity).
  destruct (a =? qm) eqn:E; [|eexists; reflexivity].
  apply N.eqb_eq in E. subst a.
  match goal with
  | |- context [if ?cond then _ else _] => destruct cond
  end; eexists; reflexivity.
Qed.

Lemma trigraph_third_not_qm (x : char) :
  trigraph_third x = true -> (x =? qm) = false.
Proof.
  intros H. destruct (x =? qm) eqn:E; [|reflexivity].
  apply N.eqb_eq in E. subst x. discriminate H.
Qed.

(** The guard leaves no trigraph forming sequence behind. *)
Lemma guard_trigraphs_no_trigraph (s : str) :
  has_trigraph (guard_trigraphs s) = false.
Proof.
  induction s as [|a t IHt IHrest] using trigraph_scan_ind; [reflexivity|].
  rewrite guard_trigraphs_cons.
  destruct t as [|b [|x rest]]; try reflexivity.
  specialize (IHrest b x rest eq_refl).
  destruct ((a =? qm) && (b =? qm) && trigraph_third x) eqn:Ehere.
  - apply andb_true_iff in Ehere as [_ Hx].
    pose proof (trigraph_third_not_qm x Hx) as Hxq.
    cbn [app]. rewrite !has_trigraph_cons, IHrest.
    destruct (guard_trigraphs rest) as [|g0 [|g1 gs]]; cbn;
      rewrite ?Hxq, ?andb_false_r; reflexivity.
  - rewrite has_trigraph_cons, IHt, orb_false_r.
    rewrite guard_trigraphs_cons.
    destruct rest as [|y rest'].
    + exact Ehere.
    + destruct ((b =? qm) && (x =? qm) && trigraph_third y) eqn:Enext.
      * cbn [app]. rewrite andb_false_r. reflexivity.
      * destruct (guard_trigraphs_head x (y :: rest')) as [r ->].
        exact Ehere.
Qed.

(** ** Octal formatting *)

Lemma octal_value_snoc (d : str) (ch : char) :
  octal_value (d ++ [ch]) = 8 * octal_value d + (ch - 48).
Proof. unfold octal_value. rewrite fold_left_app. reflexivity. Qed.

Lemma log2_div8 (n : N) : N.log2 (n / 8) = N.log2 n - 3.
Proof.
  change 8 with (2 ^ 3). rewrite <- N.shiftr_div_pow2. apply N.log2_shiftr.
Qed.

Lemma log2_ge8 (n : N) : 8 <= n -> 3 <= N.log2 n.
Proof. intros H. change 3 with (N.log2 8). apply N.log2_le_mono, H. Qed.

Lemma div8_lt (n k : N) : n < 8 * k -> n / 8 < k.
Proof. intros H. apply N.Div0.div_lt_upper_bound. exact H. Qed.

Lemma div8_ge (n k : N) : 8 * k <= n -> k <= n / 8.
Proof. intros H. apply N.div_le_lower_bound; [discriminate | exact H]. Qed.

(** With fuel above the binary logarithm, the digits denote the number:
    [format_o] never runs out of fuel. *)
Lemma octal_digits_value (fuel : nat) :
  forall n, (N.to_nat (N.log2 n) < fuel)%nat ->
  octal_value (octal_digits fuel n) = n.
Proof.
  induction fuel as [|f IH]; intros n Hfuel; [lia|].
  cbn [octal_digits]. destruct (N.ltb_spec n 8) as [Hlt|Hge].
  - unfold octal_value; cbn [fold_left]. lia.
  - rewrite octal_value_snoc, IH.
    + pose proof (N.div_mod n 8 ltac:(discriminate)) as Hdm.
      rewrite Hdm at 3. generalize (n / 8) (n mod 8). intros q r. lia.
    + rewrite log2_div8. pose proof (log2_ge8 n Hge). lia.
Qed.

Lemma format_o_value (n : N) : octal_value (format_o n) = n.
Proof. apply octal_digits_value. lia. Qed.

Lemma octal_digits_are_digits (fuel : nat) :
  forall n, Forall (fun ch => 48 <= ch <= 55) (octal_digits fuel n).
Proof.
  induction fuel as [|f IH]; intros n; cbn [octal_digits]; [constructor|].
  destruct (N.ltb_spec n 8) as [Hlt|Hge].
  - constructor; [lia | constructor].
  - apply Forall_app; split; [apply IH|].
    constructor; [|constructor].
    assert (Hm := N.mod_lt n 8 ltac:(discriminate)).
    revert Hm. generalize (n mod 8). intros r Hm. lia.
Qed.

Lemma format_03o_are_digits (n : N) :
  Forall (fun ch => 48 <= ch <= 55) (format_03o n).
Proof.
  unfold format_03o, format_o. apply Forall_app; split.
  - apply Forall_forall. intros ch Hin. apply repeat_spec in Hin. lia.
  - apply octal_digits_are_digits.
Qed.

(** Up to 0o777 the format has exactly three digits. *)
Lemma format_03o_three_digits (n : N) :
  n <= 511 ->
  format_03o n = [48 + n / 64; 48 + (n / 8) mod 8; 48 + n mod 8].
Proof.
  intros Hn. unfold format_03o, format_o.
  change 64 with (8 * 8). rewrite <- N.Div0.div_div.
  destruct (N.ltb_spec n 8) as [H8|H8].
  - cbn [octal_digits]. apply N.ltb_lt in H8 as H8'. rewrite H8'.
    rewrite (N.div_small n 8), (N.mod_small n 8) by exact H8.
    reflexivity.
  - pose proof (log2_ge8 n H8) as Hlog.
    assert (Hdiv : n / 8 < 64) by (apply div8_lt; lia).
    assert (Hdiv1 : 1 <= n / 8) by (apply div8_ge; lia).
    destruct (N.to_nat (N.log2 n)) as [|f] eqn:Hf; [lia|].
    cbn [octal_digits].
    apply N.ltb_ge in H8 as H8'. rewrite H8'.
    destruct (N.ltb_spec (n / 8) 8) as [H64|H64].
    + rewrite (N.div_small (n / 8) 8), (N.mod_small (n / 8) 8) by exact H64.
      reflexivity.
    + assert (Hlog2 : 6 <= N.log2 n).
      { change 6 with (N.log2 64). apply N.log2_le_mono.
        pose proof (N.Div0.mul_div_le n 8) as Hm.
        revert Hm H64. generalize (n / 8). intros q Hm H64. lia. }
      destruct f as [|f]; [lia|].
      cbn [octal_digits].
      assert (Hdd : n / 8 / 8 < 8) by (apply div8_lt; exact Hdiv).
      apply N.ltb_lt in Hdd as Hdd'. rewrite Hdd'.
      reflexivity.
Qed.

(** ** The escape table *)

(** What the dict holds for a one-character key. *)
Lemma simple_escape_sequence_single (ch : char) :
  dict_get simple_escape_sequence [ch]
  = if ch =? 7 then Some (u "\a")
    else if ch =? 8 then Some (u "\b")
    else if ch =? 9 then Some (u "\t")
    else if ch =? 10 then Some (u "\n")
    else if ch =? 11 then Some (u "\v")
    else if ch =? 12 then Some (u "\f")
    else if ch =? 13 then Some (u "\r")
    else if ch =? dq then Some [bs; dq]
    else if ch =? sq then Some (u "\'")
    else if ch =? bs then Some (u "\\")
    else None.
Proof.
  unfold simple_escape_sequence, dict_get, str_eqb.
  change (u "\?") with [bs; qm].
  rewrite !andb_true_r.
  repeat match goal with
         | |- context [if ?cond then _ else _] =>
             lazymatch cond with
             | _ =? _ => destruct cond; [reflexivity|]
             end
         end.
  rewrite andb_false_r. reflexivity.
Qed.

Example escape_char_to_octal_soh : escape_char_to_octal 1 = u "\001".
Proof. reflexivity. Qed.

(** Up to 0o777, apart from the question mark: the mnemonic for the ten
    characters that are keys of the table, three octal digits after a
    backslash for the others. *)
Lemma escape_char_to_octal_small (ch : char) :
  ch <= 511 ->
  escape_char_to_octal ch
  = if ch =? 7 then u "\a"
    else if ch =? 8 then u "\b"
    else if ch =? 9 then u "\t"
    else if ch =? 10 then u "\n"
    else if ch =? 11 then u "\v"
    else if ch =? 12 then u "\f"
    else if ch =? 13 then u "\r"
    else if ch =? dq then [bs; dq]
    else if ch =? sq then u "\'"
    else if ch =? bs then u "\\"
    else [bs; 48 + ch / 64; 48 + (ch / 8) mod 8; 48 + ch mod 8].
Proof.
  intros Hch. unfold escape_char_to_octal.
  rewrite simple_escape_sequence_single.
  repeat match goal with
         | |- context [if ?cond then _ else _] =>
             destruct cond; [reflexivity|]
         end.
  rewrite format_03o_three_digits by exact Hch. reflexivity.
Qed.

(** ** The functions as passes over the characters *)

Lemma escape_passes (s : str) :
  escape s
  = escape_outside_printable
      (prefix_backslash (fun ch => (ch =? sp) || (ch =? bs)) s).
Proof.
  unfold escape. rewrite sub_replacement2, sub_backslash_group1.
  f_equal. apply prefix_backslash_ext. intros ch.
  unfold Re.in_cset; cbn. rewrite orb_false_r. reflexivity.
Qed.

Lemma c_passes (s : str) :
  c s
  = [dq] ++ guard_trigraphs
              (escape_outside_printable
                 (prefix_backslash (fun ch => (ch =? dq) || (ch =? bs)) s))
         ++ [dq].
Proof.
  unfold c. rewrite sub_trigraph, sub_replacement2, sub_backslash_group1.
  do 4 f_equal. apply prefix_backslash_ext. intros ch.
  unfold Re.in_cset; cbn. rewrite orb_false_r. reflexivity.
Qed.

Lemma body_in_quotes (t : str) : body ([dq] ++ t ++ [dq]) = t.
Proof. unfold body. cbn [app tl]. apply removelast_last. Qed.

(** Whatever the line, no trigraph is left between the quotes. *)
Lemma c_body_no_trigraph (s : str) : has_trigraph (body (c s)) = false.
Proof.
  rewrite c_passes, body_in_quotes. apply guard_trigraphs_no_trigraph.
Qed.

Lemma c_maybe_cases (s : str) :
  c_maybe s = if needs_c_escaping s then c s else s.
Proof.
  unfold c_maybe, needs_c_escaping.
  rewrite !search_single_set, search_trigraph, <- existsb_orb.
  replace (existsb (fun ch => (ch =? dq) || (ch =? bs)
                              || negb (printable_ascii ch)) s)
    with (existsb (fun ch =>
                     Re.in_cset ch {| Re.negated := false;
                                      Re.items := [Re.One dq; Re.One bs] |}
                     || Re.in_cset ch not_printable_ascii) s);
    [reflexivity|].
  apply existsb_ext. intros ch.
  rewrite in_cset_not_printable. f_equal.
  unfold Re.in_cset; cbn. rewrite orb_false_r. reflexivity.
Qed.

Lemma c_without_escaping (s : str) :
  needs_c_escaping s = false -> c s = [dq] ++ s ++ [dq].
Proof.
  unfold needs_c_escaping. intros H.
  apply orb_false_iff in H as [Hchars Htri].
  pose proof (existsb_false _ _ Hchars) as Hch. cbv beta in Hch.
  rewrite c_passes. do 2 f_equal.
  unfold prefix_backslash. rewrite flat_map_unchanged.
  - unfold escape_outside_printable. rewrite flat_map_unchanged.
    + apply guard_trigraphs_unchanged, Htri.
    + intros ch Hin. specialize (Hch ch Hin).
      destruct (printable_ascii ch); [reflexivity|].
      rewrite orb_true_r in Hch. discriminate.
  - intros ch Hin. specialize (Hch ch Hin).
    destruct ((ch =? dq) || (ch =? bs)); [discriminate | reflexivity].
Qed.

Lemma pcre_prefix (s : str) :
  pcre s = prefix_backslash (fun ch => negb (word_char ch)) s.
Proof.
  unfold pcre. rewrite sub_backslash_group1.
  apply prefix_backslash_ext. intros ch.
  unfold Re.in_cset, word_char; cbn.
  rewrite orb_false_r, !orb_assoc. reflexivity.
Qed.

Lemma shell_cases (s : str) :
  shell s = if existsb is_posix_special s then shell_always s else s.
Proof.
  unfold shell, shell_pattern. rewrite search_single_set. reflexivity.
Qed.

Lemma is_posix_special_iff (ch : char) :
  is_posix_special ch = true <-> In ch posix_special.
Proof.
  unfold is_posix_special. rewrite existsb_exists. split.
  - intros [x [Hin Heq]]. apply N.eqb_eq in Heq. subst. exact Hin.
  - intros Hin. exists ch. split; [exact Hin | apply N.eqb_refl].
Qed.

Lemma shell_always_flat_map (s : str) :
  shell_always s
  = [sq] ++ flat_map (fun ch => if ch =? sq then [sq; bs; sq; sq] else [ch]) s
         ++ [sq].
Proof. unfold shell_always. rewrite str_replace_single. reflexivity. Qed.

(** Inside single quotes the shell reads the quoted text back, the
    closing quote included. *)
Lemma unquote_single_quoted (s : str) :
  Sh.unquote_from Sh.SingleQuoted
    (flat_map (fun ch => if ch =? sq then [sq; bs; sq; sq] else [ch]) s ++ [sq])
  = Some s.
Proof.
  induction s as [|y s IH]; [reflexivity|].
  cbn [flat_map]. destruct (y =? sq) eqn:E.
  - apply N.eqb_eq in E. subst y.
    rewrite <- app_assoc.
    change (Sh.unquote_from Sh.SingleQuoted ([sq; bs; sq; sq] ++ ?t))
      with (option_map (cons sq) (Sh.unquote_from Sh.SingleQuoted t)).
    rewrite IH. reflexivity.
  - rewrite <- app_assoc. cbn [app Sh.unquote_from]. rewrite E, IH. reflexivity.
Qed.

Lemma csv_default_cases (s : str) :
  csv_default s
  = if existsb (N.eqb dq) s
    then [dq] ++ flat_map (fun ch => if ch =? dq then [dq; dq] else [ch]) s
              ++ [dq]
    else if existsb (N.eqb 44) s || existsb (N.eqb 10) s
            || begins_with_whitespace s || ends_with_whitespace s
         then [dq] ++ s ++ [dq]
         else s.
Proof.
  unfold csv_default, csv.
  rewrite !str_in_single, str_replace_single.
  change (u ",") with [44]. rewrite !str_in_single.
  destruct (existsb (N.eqb dq) s); [reflexivity|].
  replace (match s with
           | [] => false
           | first :: _ =>
               str_in [first] whitespace || str_in [last s first] whitespace
           end)
    with (begins_with_whitespace s || ends_with_whitespace s).
  - rewrite orb_assoc. reflexivity.
  - destruct s as [|first t]; [reflexivity|].
    unfold begins_with_whitespace, ends_with_whitespace, is_whitespace.
    rewrite !str_in_single. reflexivity.
Qed.

(** ** Output in the printable range *)

Lemma printable_ascii_iff (ch : char) :
  printable_ascii ch = true <-> in_printable_range ch.
Proof.
  unfold printable_ascii, in_printable_range.
  rewrite andb_true_iff, !N.leb_le. tauto.
Qed.

Lemma dq_printable : in_printable_range dq.
Proof. unfold in_printable_range, dq. lia. Qed.

Lemma bs_printable : in_printable_range bs.
Proof. unfold in_printable_range, bs. lia. Qed.

Lemma qm_printable : in_printable_range qm.
Proof. unfold in_printable_range, qm. lia. Qed.

Lemma digit_printable (d : char) : 48 <= d <= 55 -> in_printable_range d.
Proof. unfold in_printable_range. lia. Qed.

Create HintDb printable.
#[local] Hint Resolve dq_printable bs_printable qm_printable digit_printable
  : printable.
#[local] Hint Constructors Forall : printable.

Lemma escape_char_to_octal_printable (ch : char) :
  Forall in_printable_range (escape_char_to_octal ch).
Proof.
  unfold escape_char_to_octal.
  destruct (dict_get simple_escape_sequence [ch]) as [m|] eqn:E.
  - apply dict_get_value in E.
    assert (Hall : forallb (forallb printable_ascii)
                     (map snd simple_escape_sequence) = true)
      by reflexivity.
    rewrite forallb_forall in Hall. specialize (Hall m E).
    rewrite forallb_forall in Hall. apply Forall_forall.
    intros x Hx. apply printable_ascii_iff, Hall, Hx.
  - constructor; [auto with printable|].
    eapply Forall_impl; [|apply format_03o_are_digits].
    auto with printable.
Qed.

Lemma escape_outside_printable_printable (s : str) :
  Forall in_printable_range (escape_outside_printable s).
Proof.
  unfold escape_outside_printable. apply Forall_flat_map, Forall_forall.
  intros ch _. destruct (printable_ascii ch) eqn:E.
  - constructor; [apply printable_ascii_iff, E | constructor].
  - apply escape_char_to_octal_printable.
Qed.

Lemma guard_trigraphs_printable (s : str) :
  Forall in_printable_range s -> Forall in_printable_range (guard_trigraphs s).
Proof.
  induction s as [|a t IHt IHrest] using trigraph_scan_ind; intros Hs;
    [constructor|].
  rewrite guard_trigraphs_cons. inversion Hs as [|a' t' Ha Ht]; subst.
  destruct t as [|b [|x rest]]; auto with printable.
  inversion Ht as [|b' t' Hb Hxr]; subst.
  inversion Hxr as [|x' t' Hx Hr]; subst.
  pose proof (IHrest b x rest eq_refl Hr) as Hguarded.
  destruct ((a =? qm) && (b =? qm) && trigraph_third x);
    cbn [app]; auto 8 with printable.
Qed.

(** ** The octal escape in the words of the specification *)

Lemma octal_numeral_length (w : nat) (n : N) :
  length (octal_numeral w n) = w.
Proof.
  unfold octal_numeral. rewrite length_map, length_rev, length_seq.
  reflexivity.
Qed.

(** The last digit is the remainder, the others are the numeral of the
    quotient. *)
Lemma octal_numeral_succ (w : nat) (n : N) :
  octal_numeral (S w) n = octal_numeral w (n / 8) ++ [48 + n mod 8].
Proof.
  unfold octal_numeral. cbn [seq rev]. rewrite map_app.
  apply (f_equal2 (@app char)).
  - rewrite <- seq_shift, <- !map_rev, map_map.
    apply map_ext. intros i.
    rewrite Nat2N.inj_succ, N.pow_succ_r', N.Div0.div_div. reflexivity.
  - cbn [map N.of_nat]. rewrite N.pow_0_r, N.div_1_r. reflexivity.
Qed.

(** A digit of weight above the number is zero. *)
Lemma octal_numeral_pad (k w : nat) (n : N) :
  n < 8 ^ N.of_nat w ->
  octal_numeral (k + w) n = repeat 48 k ++ octal_numeral w n.
Proof.
  intros Hn. induction k as [|k IH]; [reflexivity|].
  cbn [Nat.add repeat app]. rewrite <- IH.
  unfold octal_numeral. rewrite seq_S, rev_app_distr. cbn [Nat.add rev app map].
  f_equal. rewrite N.div_small; [reflexivity|].
  apply N.lt_le_trans with (1 := Hn).
  apply N.pow_le_mono_r; [discriminate|]. lia.
Qed.

Lemma log2_small (n : N) : n < 8 -> N.log2 n / 3 = 0.
Proof.
  intros Hn. apply N.div_small.
  destruct n as [|p]; [reflexivity|].
  apply N.log2_lt_pow2; [reflexivity | exact Hn].
Qed.

Lemma octal_length_small (n : N) : n < 8 -> octal_length n = 1%nat.
Proof. intros Hn. unfold octal_length. rewrite (log2_small n Hn). reflexivity. Qed.

Lemma octal_length_step (n : N) :
  8 <= n -> octal_length n = S (octal_length (n / 8)).
Proof.
  intros Hn. unfold octal_length. rewrite log2_div8.
  pose proof (log2_ge8 n Hn) as Hlog.
  replace (N.log2 n) with (N.log2 n - 3 + 1 * 3) at 1 by lia.
  rewrite N.div_add by discriminate.
  rewrite N2Nat.inj_add. change (N.to_nat 1) with 1%nat.
  generalize (N.to_nat ((N.log2 n - 3) / 3)). intros k. lia.
Qed.

(** Repeated division writes the numeral. *)
Lemma octal_digits_numeral (fuel : nat) :
  forall n, (N.to_nat (N.log2 n) < fuel)%nat ->
  octal_digits fuel n = octal_numeral (octal_length n) n.
Proof.
  induction fuel as [|f IH]; intros n Hfuel; [lia|].
  cbn [octal_digits]. destruct (N.ltb_spec n 8) as [Hlt|Hge].
  - rewrite (octal_length_small n Hlt). unfold octal_numeral.
    cbn [seq rev app map N.of_nat]. rewrite N.pow_0_r, N.div_1_r.
    rewrite (N.mod_small n 8 Hlt). reflexivity.
  - rewrite (octal_length_step n Hge), octal_numeral_succ. f_equal.
    apply IH. rewrite log2_div8. pose proof (log2_ge8 n Hge). lia.
Qed.

Lemma below_octal_length (n : N) : n < 8 ^ N.of_nat (octal_length n).
Proof.
  unfold octal_length. rewrite Nat2N.inj_succ, N2Nat.id.
  change 8 with (2 ^ 3). rewrite <- N.pow_mul_r.
  destruct n as [|p]; [apply N.neq_0_lt_0, N.pow_nonzero; discriminate|].
  destruct (N.log2_spec (N.pos p) eq_refl) as [_ Hlt].
  apply N.lt_le_trans with (1 := Hlt).
  apply N.pow_le_mono_r; [discriminate|].
  pose proof (N.div_mod (N.log2 (N.pos p)) 3 ltac:(discriminate)) as Hdm.
  pose proof (N.mod_lt (N.log2 (N.pos p)) 3 ltac:(discriminate)) as Hm.
  revert Hdm Hm.
  generalize (N.log2 (N.pos p) / 3) (N.log2 (N.pos p) mod 3)
             (N.log2 (N.pos p)).
  intros q r l Hdm Hm. lia.
Qed.

(** ['{:03o}'] writes the numeral on three digits at least. *)
Lemma format_03o_numeral (n : N) :
  format_03o n = octal_numeral (Nat.max 3 (octal_length n)) n.
Proof.
  unfold format_03o, format_o. cbv zeta.
  rewrite octal_digits_numeral by lia.
  rewrite octal_numeral_length.
  rewrite <- octal_numeral_pad by apply below_octal_length.
  f_equal. lia.
Qed.

(** Outside 0x20-0x7E the program writes the escape of the
    specification. *)
Lemma escape_char_to_octal_spec (ch : char) :
  printable_ascii ch = false ->
  escape_char_to_octal ch = spec_escape_to_octal ch.
Proof.
  intros Hnp. unfold escape_char_to_octal, spec_escape_to_octal, spec_mnemonic.
  rewrite simple_escape_sequence_single.
  repeat match goal with
         | |- context [if ?x =? ?y then _ else _] =>
             destruct (N.eqb_spec x y) as [->|?];
             [first [discriminate Hnp | reflexivity]|]
         end.
  destruct (N.eqb_spec ch qm) as [->|?]; [discriminate Hnp|].
  cbn [orb]. rewrite format_03o_numeral. reflexivity.
Qed.

Lemma escape_outside_printable_spec (s : str) :
  escape_outside_printable s = octal_escape_outside_printable s.
Proof.
  unfold escape_outside_printable, octal_escape_outside_printable.
  induction s as [|ch s IH]; [reflexivity|].
  cbn [flat_map]. rewrite IH. f_equal.
  destruct (printable_ascii ch) eqn:Hp; [reflexivity|].
  apply escape_char_to_octal_spec, Hp.
Qed.

(** * The claims *)

(** C1.  For every string [s], [c s] is [s] with every double quote and
    backslash prefixed with a backslash, then every character outside
    0x20-0x7E replaced with its octal escape, as the specification words
    it: the mnemonic for the characters of the table of simple escape
    sequences, otherwise a backslash and the octal digits of the code
    point, three at least; then a backslash inserted before the second
    question mark of every trigraph forming sequence; the whole between
    double quotes.  The string of the three characters ??! becomes a
    double quote, the four characters question mark, backslash, question
    mark, exclamation mark, and a double quote; between the quotes there
    is no ??!.  A newline, the character U+0001 and the character U+00E9
    are written backslash n, backslash 001 and backslash 351. *)
Theorem c_three_passes_in_quotes :
  (forall s,
     c s = [dq] ++ guard_trigraphs
                     (octal_escape_outside_printable
                        (prefix_backslash
                           (fun ch => (ch =? dq) || (ch =? bs)) s))
                ++ [dq])
  /\ c (u "??!") = [dq] ++ u "?\?!" ++ [dq]
  /\ str_in (u "??!") (body (c (u "??!"))) = false
  /\ c [10; 1; 233] = [dq] ++ u "\n\001\351" ++ [dq].
Proof.
  split.
  - intros s. rewrite c_passes, escape_outside_printable_spec. reflexivity.
  - repeat split; reflexivity.
Qed.

(** C2.  A string with no double quote, no backslash, no character outside
    0x20-0x7E and no trigraph forming sequence is returned unchanged by
    [c_maybe], while [c] puts it between double quotes; on every other
    string [c_maybe] agrees with [c]. *)
Theorem c_maybe_unchanged_or_c (s : str) :
  (needs_c_escaping s = false ->
     c_maybe s = s /\ c s = [dq] ++ s ++ [dq])
  /\ (needs_c_escaping s = true -> c_maybe s = c s).
Proof.
  rewrite c_maybe_cases. split; intros H; rewrite H.
  - split; [reflexivity | apply c_without_escaping, H].
  - reflexivity.
Qed.

Lemma c_maybe_unchanged_or_c_witness :
  (c_maybe (u "plain ?? text") = u "plain ?? text"
   /\ c (u "plain ?? text") = [dq] ++ u "plain ?? text" ++ [dq])
  /\ c_maybe (u "what??!") = c (u "what??!").
Proof.
  split.
  - apply (proj1 (c_maybe_unchanged_or_c (u "plain ?? text"))). reflexivity.
  - apply (proj2 (c_maybe_unchanged_or_c (u "what??!"))). reflexivity.
Defined.

(** C3.  [shell s] is [shell_always s] when [s] holds at least one of the
    POSIX characters that need quoting, and [s] itself when it holds
    none. *)
Theorem shell_quotes_iff_special (s : str) :
  ((exists ch, In ch s /\ In ch posix_special) -> shell s = shell_always s)
  /\ ((forall ch, In ch s -> ~ In ch posix_special) -> shell s = s).
Proof.
  rewrite shell_cases. split.
  - intros [ch [Hin Hsp]].
    replace (existsb is_posix_special s) with true; [reflexivity|].
    symmetry. apply existsb_exists. exists ch.
    split; [exact Hin | apply is_posix_special_iff, Hsp].
  - intros Hnone.
    destruct (existsb is_posix_special s) eqn:E; [|reflexivity].
    apply existsb_exists in E as [ch [Hin Hsp]].
    apply is_posix_special_iff in Hsp. destruct (Hnone ch Hin Hsp).
Qed.

Lemma shell_quotes_iff_special_witness :
  shell (u "two words") = shell_always (u "two words")
  /\ shell (u "one-word") = u "one-word".
Proof.
  split.
  - apply (proj1 (shell_quotes_iff_special (u "two words"))).
    exists sp. split; vm_compute; tauto.
  - apply (proj2 (shell_quotes_iff_special (u "one-word"))).
    intros ch Hin Hsp.
    assert (E : existsb is_posix_special (u "one-word") = true).
    { apply existsb_exists. exists ch.
      split; [exact Hin | apply is_posix_special_iff, Hsp]. }
    vm_compute in E. discriminate E.
Defined.

(** C4.  [shell_always s] is a single quote, then [s] with every single
    quote replaced by the four characters quote, backslash, quote, quote,
    then a single quote; a POSIX shell reads that text back as [s], for
    every [s], the empty string and strings with quotes or backslashes
    included.  For it's the result is 'it'\''s'. *)
Theorem shell_always_round_trip :
  (forall s,
     shell_always s
     = [sq] ++ flat_map (fun ch => if ch =? sq then [sq; bs; sq; sq] else [ch]) s
            ++ [sq]
     /\ Sh.unquote (shell_always s) = Some s)
  /\ shell_always (u "it's") = u "'it'\''s'".
Proof.
  split; [|reflexivity].
  intros s. split; [apply shell_always_flat_map|].
  rewrite shell_always_flat_map. unfold Sh.unquote.
  cbn [app Sh.unquote_from]. rewrite N.eqb_refl.
  apply unquote_single_quoted.
Qed.

(** C5.  With the default separators: a string that holds a double quote
    has every double quote doubled and is put between double quotes,
    whatever else it holds; otherwise a string that holds a comma or a
    newline, or begins or ends with a whitespace character, is put between
    double quotes unmodified; otherwise it is returned as it is.  The four
    examples of the specification, the empty string among them. *)
Theorem csv_default_rules :
  (forall s,
     csv_default s
     = if existsb (N.eqb dq) s
       then [dq] ++ flat_map (fun ch => if ch =? dq then [dq; dq] else [ch]) s
                 ++ [dq]
       else if existsb (N.eqb 44) s || existsb (N.eqb 10) s
               || begins_with_whitespace s || ends_with_whitespace s
            then [dq] ++ s ++ [dq]
            else s)
  /\ csv_default (u "a,b") = [dq] ++ u "a,b" ++ [dq]
  /\ csv_default (u "plain") = u "plain"
  /\ csv_default (u "he said " ++ [dq] ++ u "hi" ++ [dq])
     = [dq] ++ u "he said " ++ [dq; dq] ++ u "hi" ++ [dq; dq] ++ [dq]
  /\ csv_default [] = [].
Proof.
  split; [exact csv_default_cases|]. repeat split; reflexivity.
Qed.

(** C6.  [escape s] is two passes in this order: every space and every
    backslash gets a backslash in front, then every character outside
    0x20-0x7E is replaced with its octal escape, as the specification
    words it (the mnemonic, or a backslash and the octal digits of the
    code point, three at least).  The second pass leaves the backslashes
    of the first alone: character by character, a space or a backslash
    becomes a backslash and itself, and nothing more; a single space
    becomes backslash, space.  A tab, the character U+0001 and the
    character U+00E9 are written backslash t, backslash 001 and backslash
    351. *)
Theorem escape_two_passes :
  (forall s,
     escape s
     = octal_escape_outside_printable
         (prefix_backslash (fun ch => (ch =? sp) || (ch =? bs)) s)
     /\ escape s
        = flat_map (fun ch => if (ch =? sp) || (ch =? bs) then [bs; ch]
                              else if printable_ascii ch then [ch]
                              else spec_escape_to_octal ch) s)
  /\ printable_ascii bs = true
  /\ escape [sp] = [bs; sp]
  /\ escape [9; 1; 233] = u "\t\001\351".
Proof.
  split; [|repeat split; reflexivity].
  intros s. rewrite escape_passes, escape_outside_printable_spec.
  split; [reflexivity|].
  unfold octal_escape_outside_printable, prefix_backslash.
  rewrite flat_map_flat_map.
  apply flat_map_ext. intros ch.
  destruct (ch =? sp) eqn:Esp; [apply N.eqb_eq in Esp; subst; reflexivity|].
  destruct (ch =? bs) eqn:Ebs; [apply N.eqb_eq in Ebs; subst; reflexivity|].
  cbn [orb flat_map]. apply app_nil_r.
Qed.

(** C7, at the question mark.  The key that the table holds for the
    question mark is the two-character text backslash, question mark, so
    the one-character text of a question mark is not a key: its escape is
    the numeric one, backslash 0 7 7, and not the mnemonic backslash,
    question mark. *)
Theorem escape_char_to_octal_question_mark :
  dict_get simple_escape_sequence [qm] = None
  /\ dict_get simple_escape_sequence [bs; qm] = Some [bs; qm]
  /\ escape_char_to_octal qm = u "\077"
  /\ str_eqb (escape_char_to_octal qm) (u "\?") = false.
Proof.
  repeat split; reflexivity.
Qed.

(** C8.  [pcre s] puts a backslash in front of every character that is not
    an ASCII letter, an ASCII digit or the underscore, and leaves the
    others as they are; a string made of letters, digits and underscores
    only is returned unchanged. *)
Theorem pcre_escapes_non_word (s : str) :
  pcre s = flat_map (fun ch => if word_char ch then [ch] else [bs; ch]) s
  /\ (forallb word_char s = true -> pcre s = s).
Proof.
  assert (E : pcre s
              = flat_map (fun ch => if word_char ch then [ch] else [bs; ch]) s).
  { rewrite pcre_prefix. apply flat_map_ext. intros ch.
    destruct (word_char ch); reflexivity. }
  split; [exact E|].
  intros Hall. rewrite E. apply flat_map_unchanged.
  intros ch Hin. rewrite forallb_forall in Hall. rewrite (Hall ch Hin).
  reflexivity.
Qed.

Lemma pcre_escapes_non_word_witness :
  pcre (u "snake_Case_42") = u "snake_Case_42".
Proof.
  apply (proj2 (pcre_escapes_non_word (u "snake_Case_42"))). reflexivity.
Defined.

(** C9.  A style name that is not one of the eight registered names leaves
    the line as it is: [quote] does not fail.  Each registered name gives
    the function of that style, applied to the line. *)
Theorem quote_lenient (s quoting_style : str) :
  (~ In quoting_style
        [u "literal"; u "shell-always"; u "shell"; u "escape"; u "c";
         u "c-maybe"; u "pcre"; u "csv"] ->
   quote s quoting_style = s)
  /\ quote s (u "literal") = literal s
  /\ quote s (u "shell-always") = shell_always s
  /\ quote s (u "shell") = shell s
  /\ quote s (u "escape") = escape s
  /\ quote s (u "c") = c s
  /\ quote s (u "c-maybe") = c_maybe s
  /\ quote s (u "pcre") = pcre s
  /\ quote s (u "csv") = csv s (u ",") [10].
Proof.
  split; [|repeat split; reflexivity].
  intros Hnot. unfold quote.
  rewrite dict_get_missing; [reflexivity | exact Hnot].
Qed.

Lemma quote_lenient_witness :
  quote (u "a b") (u "posix") = u "a b".
Proof.
  apply (proj1 (quote_lenient (u "a b") (u "posix"))).
  intros Hin.
  repeat (destruct Hin as [Hin|Hin]; [discriminate Hin|]).
  exact Hin.
Defined.

(** C10.  Every character of [escape s] and every character of [c s] is
    in the range 0x20-0x7E, whatever code points [s] holds. *)
Theorem escape_and_c_printable_ascii (s : str) :
  Forall in_printable_range (escape s) /\ Forall in_printable_range (c s).
Proof.
  split.
  - rewrite escape_passes. apply escape_outside_printable_printable.
  - rewrite c_passes. apply Forall_app; split; [|apply Forall_app; split].
    + auto with printable.
    + apply guard_trigraphs_printable, escape_outside_printable_printable.
    + auto with printable.
Qed.

(** * Further properties of the quoting functions *)

(** ** What the shell reads back *)

Lemma not_special_not_quote (ch : char) :
  is_posix_special ch = false -> (ch =? sq) = false /\ (ch =? bs) = false.
Proof.
  intros H. split.
  - destruct (ch =? sq) eqn:E; [|reflexivity].
    apply N.eqb_eq in E. subst ch. discriminate H.
  - destruct (ch =? bs) eqn:E; [|reflexivity].
    apply N.eqb_eq in E. subst ch. discriminate H.
Qed.

(** Outside quotes, text without special characters stands for itself. *)
Lemma unquote_plain (s : str) :
  existsb is_posix_special s = false ->
  Sh.unquote_from Sh.Unquoted s = Some s.
Proof.
  induction s as [|a s IH]; [reflexivity|].
  cbn [existsb]. intros H. apply orb_false_iff in H as [Ha Hs].
  destruct (not_special_not_quote a Ha) as [Hsq Hbs].
  cbn [Sh.unquote_from]. rewrite Hsq, Hbs, Ha, (IH Hs). reflexivity.
Qed.

Lemma unquote_shell_always (s : str) :
  Sh.unquote (shell_always s) = Some s.
Proof.
  rewrite shell_always_flat_map. unfold Sh.unquote.
  cbn [app Sh.unquote_from]. rewrite N.eqb_refl.
  apply unquote_single_quoted.
Qed.

(** X1.  For every line that is not empty and holds no NUL character
    (a word of a shell cannot hold one), the text [shell] returns, quoted
    or not, stands for one word by the POSIX quoting rules, and the word
    is the line: a line is left unquoted only when every character of it
    is taken literally. *)
Theorem shell_round_trip (s : str) :
  s <> [] -> ~ In 0 s -> Sh.read_word (shell s) = Some s.
Proof.
  intros Hne _. rewrite shell_cases.
  destruct (existsb is_posix_special s) eqn:E.
  - pose proof (unquote_shell_always s) as H.
    rewrite shell_always_flat_map in H |- *. exact H.
  - destruct s as [|a t]; [contradiction|].
    apply unquote_plain, E.
Qed.

Lemma shell_round_trip_witness :
  Sh.read_word (shell (u "two words, it's")) = Some (u "two words, it's").
Proof.
  apply (shell_round_trip (u "two words, it's")).
  - discriminate.
  - intros Hin. cbn in Hin.
    repeat (destruct Hin as [Hin|Hin]; [discriminate Hin|]). exact Hin.
Defined.

(** The empty line is returned as empty text, which is no word;
    [shell_always] writes the empty word. *)
Example shell_empty_line :
  shell [] = [] /\ Sh.read_word (shell []) = None
  /\ Sh.read_word (shell_always []) = Some [].
Proof. repeat split; reflexivity. Qed.

(** ** No trigraph in the output *)

Lemma has_trigraph_snoc (z : char) (t : str) :
  trigraph_third z = false -> has_trigraph (t ++ [z]) = has_trigraph t.
Proof.
  intros Hz. induction t as [|a t IH]; [reflexivity|].
  cbn [app]. rewrite !has_trigraph_cons, IH. f_equal.
  destruct t as [|b [|x rest]]; try reflexivity.
  cbn [app]. rewrite Hz, andb_false_r. reflexivity.
Qed.

Lemma has_trigraph_in_quotes (t : str) :
  has_trigraph ([dq] ++ t ++ [dq]) = has_trigraph t.
Proof.
  cbn [app]. rewrite has_trigraph_cons, has_trigraph_snoc by reflexivity.
  destruct (t ++ [dq]) as [|b [|x rest]]; reflexivity.
Qed.

Lemma c_no_trigraph (s : str) : has_trigraph (c s) = false.
Proof.
  rewrite c_passes, has_trigraph_in_quotes.
  apply guard_trigraphs_no_trigraph.
Qed.

(** X2.  Neither [c] nor [c_maybe] ever returns text that holds a trigraph
    forming sequence, the double quotes included: after the guard no two
    question marks are followed by one of the nine characters. *)
Theorem c_and_c_maybe_no_trigraph (s : str) :
  has_trigraph (c s) = false /\ has_trigraph (c_maybe s) = false.
Proof.
  split; [apply c_no_trigraph|].
  rewrite c_maybe_cases.
  destruct (needs_c_escaping s) eqn:E; [apply c_no_trigraph|].
  unfold needs_c_escaping in E. apply orb_false_iff in E as [_ E]. exact E.
Qed.

(** ** Tokens and escape sequences *)

Lemma c_tokens (s : str) :
  escape_outside_printable
    (prefix_backslash (fun ch => (ch =? dq) || (ch =? bs)) s)
  = flat_map c_token s.
Proof.
  unfold escape_outside_printable, prefix_backslash.
  rewrite flat_map_flat_map. apply flat_map_ext. intros ch. unfold c_token.
  destruct (ch =? dq) eqn:Edq; [apply N.eqb_eq in Edq; subst; reflexivity|].
  destruct (ch =? bs) eqn:Ebs; [apply N.eqb_eq in Ebs; subst; reflexivity|].
  cbn [orb flat_map]. apply app_nil_r.
Qed.

Lemma escape_tokens (s : str) : escape s = flat_map escape_token s.
Proof.
  rewrite escape_passes.
  unfold escape_outside_printable, prefix_backslash.
  rewrite flat_map_flat_map. apply flat_map_ext. intros ch. unfold escape_token.
  destruct (ch =? sp) eqn:Esp; [apply N.eqb_eq in Esp; subst; reflexivity|].
  destruct (ch =? bs) eqn:Ebs; [apply N.eqb_eq in Ebs; subst; reflexivity|].
  cbn [orb flat_map]. apply app_nil_r.
Qed.

Lemma c_simple_escape_digit (e : char) :
  48 <= e <= 55 -> c_simple_escape e = None.
Proof.
  intros He. unfold c_simple_escape, dq, sq, qm, bs.
  repeat match goal with
         | |- context [?x =? ?y] =>
             destruct (N.eqb_spec x y); [lia|]
         end.
  reflexivity.
Qed.

Lemma octal_digit_value_digit (d : N) :
  d <= 7 -> octal_digit_value (48 + d) = Some d.
Proof.
  intros Hd. unfold octal_digit_value.
  destruct (N.leb_spec 48 (48 + d)); [|lia].
  destruct (N.leb_spec (48 + d) 55); [|lia].
  cbn [andb]. f_equal. lia.
Qed.

(** The three octal digits of a code point up to 0o777. *)
Lemma three_octal_digits (a : N) :
  a <= 511 ->
  a / 64 <= 7 /\ (a / 8) mod 8 <= 7 /\ a mod 8 <= 7
  /\ 64 * (a / 64) + 8 * ((a / 8) mod 8) + a mod 8 = a.
Proof.
  intros Ha.
  change 64 with (8 * 8) at 1 3. rewrite <- N.Div0.div_div.
  pose proof (N.div_mod a 8 ltac:(discriminate)) as Ha8.
  pose proof (N.mod_lt a 8 ltac:(discriminate)) as Hr.
  pose proof (N.div_mod (a / 8) 8 ltac:(discriminate)) as Hq8.
  pose proof (N.mod_lt (a / 8) 8 ltac:(discriminate)) as Hr2.
  assert (Hq : a / 8 < 64) by (apply div8_lt; lia).
  assert (Hqq : a / 8 / 8 < 8) by (apply div8_lt; exact Hq).
  revert Ha8 Hr Hq8 Hr2 Hq Hqq.
  generalize (a / 8 / 8) ((a / 8) mod 8) (a mod 8). intros q2 r1 r0.
  generalize (a / 8). intros q1. lia.
Qed.

Section Decode.

(** A reader's simple escapes: the C ones, and perhaps the space. *)
Variable simple : char -> option char.
Hypothesis simple_c : forall e, e <> sp -> simple e = c_simple_escape e.

(** The escape of a character outside 0x20-0x7E, up to 0o777, is a
    backslash and an escape sequence that stands for the character,
    whatever follows. *)
Lemma decode_escape_char_to_octal (a : char) :
  a <= 511 -> printable_ascii a = false ->
  exists w,
    escape_char_to_octal a = bs :: w
    /\ forall rest, decode_escape simple (w ++ rest) = Some (a, length w).
Proof.
  intros Ha Hnp. rewrite (escape_char_to_octal_small a Ha).
  repeat match goal with
         | |- context [if ?x =? ?y then _ else _] =>
             destruct (N.eqb_spec x y) as [->|?];
             [first [discriminate Hnp
                    | eexists; split; [reflexivity|]; intros rest;
                      cbn [app decode_escape]; rewrite simple_c by discriminate;
                      reflexivity]|]
         end.
  destruct (three_octal_digits a Ha) as (H2 & H1 & H0 & Hval).
  eexists; split; [reflexivity|]. intros rest.
  cbn [app decode_escape length].
  rewrite simple_c by (unfold sp; lia).
  rewrite c_simple_escape_digit by lia.
  rewrite !octal_digit_value_digit by assumption.
  rewrite Hval. reflexivity.
Qed.

End Decode.

(** ** Reading the escape style back *)

Lemma esc_simple_c (e : char) : e <> sp -> Esc.simple e = c_simple_escape e.
Proof.
  intros He. unfold Esc.simple.
  destruct (N.eqb_spec e sp); [contradiction | reflexivity].
Qed.

Lemma unescape_from_skip (w rest : str) :
  Esc.unescape_from (length w) (w ++ rest) = Esc.unescape_from 0 rest.
Proof. induction w as [|x w IH]; [reflexivity | exact IH]. Qed.

Lemma unescape_token (a : char) (rest : str) :
  a <= 511 ->
  Esc.unescape_from 0 (escape_token a ++ rest)
  = option_map (cons a) (Esc.unescape_from 0 rest).
Proof.
  intros Ha. unfold escape_token.
  destruct (N.eqb_spec a sp) as [->|Hsp]; [reflexivity|].
  destruct (N.eqb_spec a bs) as [->|Hbs]; [reflexivity|].
  cbn [orb]. destruct (printable_ascii a) eqn:Hp.
  - cbn [app Esc.unescape_from].
    destruct (N.eqb_spec a bs); [contradiction|].
    destruct (N.eqb_spec a sp); [contradiction|].
    rewrite Hp. reflexivity.
  - destruct (decode_escape_char_to_octal Esc.simple esc_simple_c a Ha Hp)
      as (w & -> & Hdecode).
    cbn [app Esc.unescape_from]. rewrite N.eqb_refl.
    rewrite Hdecode, unescape_from_skip. reflexivity.
Qed.

(** X4.  Text in the escape style reads back as the line it was made
    from, for every line of code points up to 0o777: every space and
    backslash of the line is behind a backslash, and every escape stands
    for its character whatever follows it. *)
Theorem escape_round_trip (s : str) :
  Forall (fun ch => ch <= 511) s -> Esc.unescape (escape s) = Some s.
Proof.
  rewrite escape_tokens. unfold Esc.unescape.
  induction 1 as [|a s Ha _ IH]; [reflexivity|].
  cbn [flat_map]. rewrite unescape_token by exact Ha.
  rewrite IH. reflexivity.
Qed.

Lemma escape_round_trip_witness :
  Esc.unescape (escape (u "a b\c?" ++ [9; 1; 49; 255; 511]))
  = Some (u "a b\c?" ++ [9; 1; 49; 255; 511]).
Proof.
  apply (escape_round_trip (u "a b\c?" ++ [9; 1; 49; 255; 511])).
  repeat constructor; vm_compute; discriminate.
Defined.

(** Above 0o777 the escape has more than three digits, and a reader of
    three-digit escapes takes it for two characters. *)
Example escape_above_0o777 :
  escape [512] = u "\1000" /\ Esc.unescape (escape [512]) = Some [64; 48].
Proof. split; reflexivity. Qed.

(** ** Reading the C string literal back *)

Lemma trigraph_third_cases (x : char) :
  trigraph_third x = true -> In x [33; 39; 40; 41; 45; 47; 60; 61; 62].
Proof.
  unfold trigraph_third. intros H.
  apply existsb_exists in H as [y [Hin Heq]].
  apply N.eqb_eq in Heq. subst y. exact Hin.
Qed.

(** A character that completes a trigraph is written as it is. *)
Lemma trigraph_third_plain (x : char) :
  trigraph_third x = true ->
  c_token x = [x] /\ (x =? dq) = false /\ (x =? bs) = false
  /\ printable_ascii x = true.
Proof.
  intros H. apply trigraph_third_cases in H. cbn [In] in H.
  repeat (destruct H as [<-|H]; [repeat split; reflexivity|]).
  destruct H.
Qed.

Lemma trigraph_char_none (x : char) :
  trigraph_third x = false -> C.trigraph_char x = None.
Proof.
  intros H. unfold C.trigraph_char.
  repeat match goal with
         | |- context [if ?y =? ?k then _ else _] =>
             destruct (N.eqb_spec y k) as [->|?]; [discriminate H|]
         end.
  reflexivity.
Qed.

Lemma replace_trigraphs_cons (a : char) (t : str) :
  C.replace_trigraphs (a :: t)
  = match t with
    | b :: x :: rest =>
        if (a =? qm) && (b =? qm)
        then match C.trigraph_char x with
             | Some r => r :: C.replace_trigraphs rest
             | None => a :: C.replace_trigraphs t
             end
        else a :: C.replace_trigraphs t
    | _ => a :: C.replace_trigraphs t
    end.
Proof. reflexivity. Qed.

(** Phase 1 changes nothing in text without a trigraph forming
    sequence. *)
Lemma replace_trigraphs_unchanged (s : str) :
  has_trigraph s = false -> C.replace_trigraphs s = s.
Proof.
  induction s as [|a t IH]; [reflexivity|].
  rewrite has_trigraph_cons, replace_trigraphs_cons. intros H.
  apply orb_false_iff in H as [Hhere Hrest]. rewrite (IH Hrest).
  destruct t as [|b [|x rest]]; try reflexivity.
  destruct ((a =? qm) && (b =? qm)); [|reflexivity].
  cbn [andb] in Hhere. rewrite (trigraph_char_none x Hhere). reflexivity.
Qed.

Lemma read_from_skip (w rest : str) :
  C.read_from (length w) (w ++ rest) = C.read_from 0 rest.
Proof. induction w as [|x w IH]; [reflexivity | exact IH]. Qed.

Lemma read_token (a : char) (rest : str) :
  a <= 255 ->
  C.read_from 0 (c_token a ++ rest)
  = option_map (cons a) (C.read_from 0 rest).
Proof.
  intros Ha. unfold c_token.
  destruct (N.eqb_spec a dq) as [->|Hdq]; [reflexivity|].
  destruct (N.eqb_spec a bs) as [->|Hbs]; [reflexivity|].
  cbn [orb]. destruct (printable_ascii a) eqn:Hp.
  - cbn [app C.read_from].
    destruct (N.eqb_spec a dq); [contradiction|].
    destruct (N.eqb_spec a bs); [contradiction|].
    rewrite Hp. reflexivity.
  - assert (Ha' : a <= 511) by lia.
    destruct (decode_escape_char_to_octal c_simple_escape
                (fun e _ => eq_refl) a Ha' Hp) as (w & -> & Hdecode).
    cbn [app C.read_from]. rewrite N.eqb_refl.
    change (bs =? dq) with false. cbv iota.
    rewrite Hdecode, read_from_skip.
    apply N.leb_le in Ha. rewrite Ha. reflexivity.
Qed.

(** A token is the character itself, or begins with a backslash and holds
    no question mark. *)
Lemma c_token_shape (a : char) :
  c_token a = [a]
  \/ exists w, c_token a = bs :: w /\ Forall (fun ch => ch <> qm) w.
Proof.
  unfold c_token.
  destruct (N.eqb_spec a dq) as [->|Hdq].
  { right. exists [dq]. split; [reflexivity|]. repeat constructor. discriminate. }
  destruct (N.eqb_spec a bs) as [->|Hbs].
  { right. exists [bs]. split; [reflexivity|]. repeat constructor. discriminate. }
  cbn [orb]. destruct (printable_ascii a); [left; reflexivity|].
  right. unfold escape_char_to_octal. rewrite simple_escape_sequence_single.
  repeat match goal with
         | |- context [if ?cond then _ else _] =>
             destruct cond;
             [eexists; split; [reflexivity|]; repeat constructor; discriminate|]
         end.
  eexists; split; [reflexivity|].
  eapply Forall_impl; [|apply format_03o_are_digits].
  intros d Hd. cbv beta in Hd. unfold qm. lia.
Qed.

Lemma c_token_no_qm (a : char) :
  a <> qm -> Forall (fun ch => ch <> qm) (c_token a).
Proof.
  intros Ha. destruct (c_token_shape a) as [->|(w & -> & Hw)].
  - repeat constructor. exact Ha.
  - constructor; [discriminate | exact Hw].
Qed.

(** The first character of a token completes no trigraph, unless the
    token is such a character. *)
Lemma c_token_head (x : char) :
  trigraph_third x = false ->
  exists h w, c_token x = h :: w /\ trigraph_third h = false.
Proof.
  intros Hx. destruct (c_token_shape x) as [->|(w & -> & _)].
  - exists x, []. split; [reflexivity | exact Hx].
  - exists bs, w. split; reflexivity.
Qed.

Lemma guard_trigraphs_no_qm (w rest : str) :
  Forall (fun ch => ch <> qm) w ->
  guard_trigraphs (w ++ rest) = w ++ guard_trigraphs rest.
Proof.
  induction 1 as [|a w Ha _ IH]; [reflexivity|].
  cbn [app]. rewrite guard_trigraphs_cons, IH.
  destruct (N.eqb_spec a qm); [contradiction|].
  destruct (w ++ rest) as [|b [|x r]]; reflexivity.
Qed.

(** The guard works token by token: where the line has two question marks
    and a completing character it writes the four guarded characters,
    elsewhere the token of the first character. *)
Lemma guard_tokens_cons (a : char) (t : str) :
  guard_trigraphs (flat_map c_token (a :: t))
  = match t with
    | b :: x :: rest =>
        if (a =? qm) && (b =? qm) && trigraph_third x
        then [qm; bs; qm; x] ++ guard_trigraphs (flat_map c_token rest)
        else c_token a ++ guard_trigraphs (flat_map c_token t)
    | _ => c_token a ++ guard_trigraphs (flat_map c_token t)
    end.
Proof.
  assert (Hplain : a <> qm ->
            guard_trigraphs (flat_map c_token (a :: t))
            = c_token a ++ guard_trigraphs (flat_map c_token t)).
  { intros Ha. cbn [flat_map].
    apply guard_trigraphs_no_qm, c_token_no_qm, Ha. }
  destruct (N.eqb_spec a qm) as [->|Ha].
  2: { rewrite (Hplain Ha). destruct t as [|b [|x rest]]; reflexivity. }
  clear Hplain. change (c_token qm) with [qm].
  destruct t as [|b t']; [reflexivity|].
  cbn [flat_map]. change (c_token qm) with [qm]. cbn [app andb].
  destruct (N.eqb_spec b qm) as [->|Hb].
  - change (c_token qm) with [qm]. cbn [app andb].
    destruct t' as [|x rest]; [reflexivity|].
    cbn [flat_map]. destruct (trigraph_third x) eqn:Hx.
    + destruct (trigraph_third_plain x Hx) as (-> & _).
      cbn [app]. rewrite guard_trigraphs_cons, Hx. reflexivity.
    + destruct (c_token_head x Hx) as (h & w & -> & Hh).
      cbn [app]. rewrite guard_trigraphs_cons, Hh. reflexivity.
  - pose proof (c_token_no_qm b Hb) as Hno.
    destruct (c_token b) as [|h w] eqn:Etok.
    + destruct (c_token_shape b) as [E|(w' & E & _)];
        rewrite Etok in E; discriminate E.
    + inversion Hno as [|h' w' Hh Hw]; subst.
      cbn [app]. rewrite guard_trigraphs_cons.
      destruct (N.eqb_spec h qm); [contradiction|].
      cbn [andb].
      destruct t' as [|x rest]; destruct (w ++ _) as [|y r]; reflexivity.
Qed.

Lemma read_guarded_tokens (s : str) :
  Forall (fun ch => ch <= 255) s ->
  C.read_from 0 (guard_trigraphs (flat_map c_token s) ++ [dq]) = Some s.
Proof.
  induction s as [|a t IHt IHrest] using trigraph_scan_ind; intros Hs;
    [reflexivity|].
  inversion Hs as [|a' t' Ha Ht]; subst.
  assert (Hplain :
            C.read_from 0
              ((c_token a ++ guard_trigraphs (flat_map c_token t)) ++ [dq])
            = Some (a :: t)).
  { rewrite <- app_assoc, read_token by exact Ha.
    rewrite (IHt Ht). reflexivity. }
  rewrite guard_tokens_cons.
  destruct t as [|b [|x rest]]; try exact Hplain.
  destruct ((a =? qm) && (b =? qm) && trigraph_third x) eqn:Ehere;
    [|exact Hplain].
  apply andb_true_iff in Ehere as [Eab Hx].
  apply andb_true_iff in Eab as [Ea Eb].
  apply N.eqb_eq in Ea, Eb. subst a b.
  destruct (trigraph_third_plain x Hx) as (_ & Hxdq & Hxbs & Hxp).
  inversion Ht as [|b' t' _ Hxr]; subst.
  inversion Hxr as [|x' t' _ Hr]; subst.
  specialize (IHrest qm x rest eq_refl Hr).
  cbn [app C.read_from]. change (qm =? dq) with false.
  change (qm =? bs) with false. change (bs =? dq) with false.
  change (bs =? bs) with true. change (printable_ascii qm) with true.
  cbv iota. cbn [decode_escape].
  change (c_simple_escape qm) with (Some qm). cbv iota.
  change (qm <=? 255) with true. cbv iota.
  cbn [C.read_from]. rewrite Hxdq, Hxbs, Hxp.
  cbn [app] in IHrest. rewrite IHrest. reflexivity.
Qed.

(** X3.  A C compiler reads the literal that [c] writes back as the line,
    trigraph replacement included, for every line of code points up to
    0o377, the values that an octal escape can give a character of a
    string literal: the only double quotes that are not behind a backslash
    are the first and the last character, and no escape runs into the
    digits that follow it. *)
Theorem c_round_trip (s : str) :
  Forall (fun ch => ch <= 255) s -> C.read_literal (c s) = Some s.
Proof.
  intros Hs. unfold C.read_literal.
  rewrite replace_trigraphs_unchanged by apply c_no_trigraph.
  rewrite c_passes, c_tokens. cbn [app]. rewrite N.eqb_refl.
  apply read_guarded_tokens, Hs.
Qed.

Lemma c_round_trip_witness :
  C.read_literal (c (u "what??! a\b" ++ [dq; 10; 1; 49; 233; 255]))
  = Some (u "what??! a\b" ++ [dq; 10; 1; 49; 233; 255]).
Proof.
  apply (c_round_trip (u "what??! a\b" ++ [dq; 10; 1; 49; 233; 255])).
  repeat constructor; vm_compute; discriminate.
Defined.

(** Above 0o377 the escape that [c] writes is out of range for a
    character of the literal, and above 0o777 it has a fourth digit that
    is read as a character of its own. *)
Example c_above_0o377 :
  c [256] = [dq] ++ u "\400" ++ [dq] /\ C.read_literal (c [256]) = None
  /\ c [512] = [dq] ++ u "\1000" ++ [dq]
  /\ C.read_literal (c [512]) = Some [64; 48].
Proof. repeat split; reflexivity. Qed.

(** Without the guard the compiler would read the trigraph. *)
Example trigraph_unguarded :
  C.read_literal ([dq] ++ u "what??!" ++ [dq]) = Some (u "what|").
Proof. reflexivity. Qed.

(** ** Reading the PCRE pattern back *)

Lemma word_char_alphanumeric (ch : char) :
  word_char ch = Pcre.alphanumeric ch || (ch =? 95).
Proof. reflexivity. Qed.

(** X5.  As a PCRE pattern, [pcre s] has no metacharacter and matches the
    string [s] itself: every character of it that is not a letter, a
    digit or an underscore is behind a backslash, and no backslash stands
    before a letter or a digit. *)
Theorem pcre_round_trip (s : str) : Pcre.literal_of (pcre s) = Some s.
Proof.
  rewrite pcre_prefix. unfold Pcre.literal_of, prefix_backslash.
  induction s as [|a s IH]; [reflexivity|].
  cbn [flat_map]. destruct (word_char a) eqn:Hw; cbn [negb app Pcre.literal_from].
  - destruct (N.eqb_spec a bs) as [->|_]; [discriminate Hw|].
    rewrite Hw, IH. reflexivity.
  - rewrite N.eqb_refl.
    rewrite word_char_alphanumeric in Hw.
    apply orb_false_iff in Hw as [-> _].
    rewrite IH. reflexivity.
Qed.

(** ** Reading the CSV record back *)

(** The characters of the fields that the grammar can carry through
    [csv]: those of 0x20-0x7E and the line feed. *)
Lemma quoted_char (ch : char) :
  in_printable_range ch \/ ch = 10 -> ch <> dq ->
  Csv.textdata ch || (ch =? 44) || (ch =? 13) || (ch =? 10) = true.
Proof.
  intros Hch Hdq.
  destruct (N.eqb_spec ch 10) as [->|Hnl]; [reflexivity|].
  destruct (N.eqb_spec ch 44) as [->|Hcomma]; [reflexivity|].
  destruct Hch as [[Hlo Hhi]|Hch]; [|contradiction].
  rewrite !orb_false_r. unfold Csv.textdata, dq in *.
  destruct (N.leb_spec 32 ch); [|lia].
  destruct (N.leb_spec ch 33); [reflexivity|].
  destruct (N.leb_spec 35 ch); [|lia].
  destruct (N.leb_spec ch 43); [reflexivity|].
  destruct (N.leb_spec 45 ch); [|lia].
  destruct (N.leb_spec ch 126); [reflexivity | lia].
Qed.

Lemma unquoted_char (ch : char) :
  in_printable_range ch \/ ch = 10 ->
  (ch =? dq) = false -> (ch =? 44) = false -> (ch =? 10) = false ->
  Csv.textdata ch = true.
Proof.
  intros Hch Hdq Hcomma Hnl.
  apply N.eqb_neq in Hdq. pose proof (quoted_char ch Hch Hdq) as H.
  rewrite Hcomma, Hnl, !orb_false_r in H.
  destruct (N.eqb_spec ch 13) as [->|_]; [|rewrite orb_false_r in H; exact H].
  destruct Hch as [[Hlo _]|Hch]; [|discriminate Hch].
  unfold in_printable_range in *. lia.
Qed.

Section CsvField.

(** What follows a field: the end of the record, or a comma and the
    fields [fields] still to come. *)
Variable tail : str.
Variable fields : list str.
Hypothesis after_field :
  forall st, st <> Csv.Quoted -> Csv.read_from st tail = Some ([] :: fields).

Lemma read_quoted_field (f : str) :
  Forall (fun ch => in_printable_range ch \/ ch = 10) f ->
  Csv.read_from Csv.Quoted
    (flat_map (fun ch => if ch =? dq then [dq; dq] else [ch]) f
     ++ [dq] ++ tail)
  = Some (f :: fields).
Proof.
  induction 1 as [|a f Ha _ IH].
  - cbn [flat_map app Csv.read_from]. rewrite N.eqb_refl.
    apply after_field. discriminate.
  - cbn [flat_map]. destruct (N.eqb_spec a dq) as [->|Hdq].
    + cbn [app Csv.read_from] in *. rewrite !N.eqb_refl. rewrite IH. reflexivity.
    + cbn [app Csv.read_from] in *.
      destruct (N.eqb_spec a dq); [contradiction|].
      rewrite (quoted_char a Ha Hdq), IH. reflexivity.
Qed.

Lemma read_unquoted_field (f : str) :
  Forall (fun ch => in_printable_range ch \/ ch = 10) f ->
  existsb (N.eqb dq) f = false ->
  existsb (N.eqb 44) f = false ->
  existsb (N.eqb 10) f = false ->
  forall st, st = Csv.FieldStart \/ st = Csv.Unquoted ->
  Csv.read_from st (f ++ tail) = Some (f :: fields).
Proof.
  induction 1 as [|a f Ha _ IH]; intros Hdq Hcomma Hnl st Hst.
  - apply after_field. destruct Hst; subst; discriminate.
  - cbn [existsb] in Hdq, Hcomma, Hnl.
    apply orb_false_iff in Hdq as [Hadq Hdq].
    apply orb_false_iff in Hcomma as [Hacomma Hcomma].
    apply orb_false_iff in Hnl as [Hanl Hnl].
    rewrite N.eqb_sym in Hadq, Hacomma, Hanl.
    specialize (IH Hdq Hcomma Hnl Csv.Unquoted (or_intror eq_refl)).
    pose proof (unquoted_char a Ha Hadq Hacomma Hanl) as Htext.
    destruct Hst; subst; cbn [app Csv.read_from];
      rewrite ?Hadq, Hacomma, Htext, IH; reflexivity.
Qed.

Lemma read_csv_field (f : str) :
  Forall (fun ch => in_printable_range ch \/ ch = 10) f ->
  Csv.read_from Csv.FieldStart (csv_default f ++ tail) = Some (f :: fields).
Proof.
  intros Hf. rewrite csv_default_cases.
  destruct (existsb (N.eqb dq) f) eqn:Hdq.
  - rewrite <- !app_assoc. cbn [app Csv.read_from]. rewrite N.eqb_refl.
    apply read_quoted_field, Hf.
  - destruct (existsb (N.eqb 44) f || existsb (N.eqb 10) f
              || begins_with_whitespace f || ends_with_whitespace f) eqn:Hq.
    + rewrite <- !app_assoc. cbn [app Csv.read_from]. rewrite N.eqb_refl.
      rewrite <- (flat_map_unchanged
                    (fun ch => if ch =? dq then [dq; dq] else [ch]) f) at 1.
      * apply read_quoted_field, Hf.
      * intros ch Hin.
        pose proof (existsb_false _ _ Hdq ch Hin) as Hch. cbv beta in Hch.
        rewrite N.eqb_sym, Hch. reflexivity.
    + apply orb_false_iff in Hq as [Hq _].
      apply orb_false_iff in Hq as [Hq _].
      apply orb_false_iff in Hq as [Hcomma Hnl].
      apply read_unquoted_field; auto.
Qed.

End CsvField.

Lemma read_csv_fields (f : str) (fields : list str) :
  Forall (Forall (fun ch => in_printable_range ch \/ ch = 10)) (f :: fields) ->
  Csv.read_from Csv.FieldStart
    (str_join (u ",") (map csv_default (f :: fields)))
  = Some (f :: fields).
Proof.
  revert f. induction fields as [|g fields IH]; intros f Hall;
    inversion Hall as [|f' fs' Hf Hrest]; subst.
  - cbn [map str_join]. rewrite <- (app_nil_r (csv_default f)).
    apply read_csv_field; [|exact Hf].
    intros [] H; try reflexivity. contradiction.
  - change (str_join (u ",") (map csv_default (f :: g :: fields)))
      with (csv_default f
            ++ [44] ++ str_join (u ",") (map csv_default (g :: fields))).
    apply read_csv_field; [|exact Hf]. intros st Hst.
    cbn [app Csv.read_from]. rewrite (IH g Hrest).
    destruct st; try reflexivity. contradiction.
Qed.

Lemma read_record_fields (text : str) (fields : list str) :
  Csv.read_from Csv.FieldStart text = Some fields ->
  fields <> [[]] ->
  Csv.read_record text = Some fields.
Proof.
  destruct text as [|ch text]; [|intros H _; exact H].
  cbn [Csv.read_from]. intros [= <-] H. contradiction.
Qed.

(** X6.  A record made of the fields [csv] writes, joined with commas,
    reads back as the fields by the grammar of RFC 4180, for every list
    of fields made of characters of 0x20-0x7E and line feeds, but no
    field at all or a single empty field, which is written as empty text:
    [csv] leaves a field unquoted only when it is made of the text that
    the grammar takes for an unquoted field. *)
Theorem csv_round_trip (fields : list str) :
  fields <> [] -> fields <> [[]] ->
  Forall (Forall (fun ch => in_printable_range ch \/ ch = 10)) fields ->
  Csv.read_record (str_join (u ",") (map csv_default fields)) = Some fields.
Proof.
  destruct fields as [|f fields]; [contradiction|].
  intros _ Hnot Hall. apply read_record_fields; [|exact Hnot].
  apply read_csv_fields, Hall.
Qed.

Lemma csv_round_trip_witness :
  Csv.read_record
    (str_join (u ",")
       (map csv_default [u "a,b"; []; u " x"; [dq] ++ u "hi" ++ [dq; 10]]))
  = Some [u "a,b"; []; u " x"; [dq] ++ u "hi" ++ [dq; 10]].
Proof.
  apply (csv_round_trip [u "a,b"; []; u " x"; [dq] ++ u "hi" ++ [dq; 10]]).
  - discriminate.
  - discriminate.
  - repeat first [apply Forall_nil | apply Forall_cons];
      first [right; reflexivity | left; vm_compute; split; discriminate].
Defined.

(** A carriage return inside a field is no reason for [csv] to quote it,
    and the grammar has none in a field that is not quoted; a tab is left
    bare in the same way. *)
Example csv_carriage_return_bare :
  csv_default [97; 13; 98] = [97; 13; 98]
  /\ Csv.read_record (csv_default [97; 13; 98]) = None
  /\ Csv.read_record (csv_default [97; 9; 98]) = None.
Proof. repeat split; reflexivity. Qed.

(** ** The numeric escapes denote the code point *)

Lemma octal_value_zeros (k : nat) (d : str) :
  octal_value (repeat 48 k ++ d) = octal_value d.
Proof.
  unfold octal_value. induction k as [|k IH]; [reflexivity|].
  cbn [repeat app fold_left]. exact IH.
Qed.

Lemma format_03o_value (n : N) : octal_value (format_03o n) = n.
Proof. unfold format_03o. rewrite octal_value_zeros. apply format_o_value. Qed.

Lemma octal_digits_step (f : nat) (n : N) :
  8 <= n ->
  octal_digits (S f) n = octal_digits f (n / 8) ++ [48 + n mod 8].
Proof.
  intros Hn. cbn [octal_digits].
  destruct (N.ltb_spec n 8); [lia | reflexivity].
Qed.

Lemma octal_digits_nonempty (f : nat) (n : N) :
  (1 <= length (octal_digits (S f) n))%nat.
Proof.
  cbn [octal_digits]. destruct (n <? 8); [cbn; lia|].
  rewrite length_app. cbn. lia.
Qed.

(** Above 0o777 there are more than three digits. *)
Lemma format_03o_long (n : N) : 512 <= n -> (4 <= length (format_03o n))%nat.
Proof.
  intros Hn. unfold format_03o. cbv zeta. rewrite length_app.
  enough (H : (4 <= length (format_o n))%nat)
    by (unfold str, char in *; lia).
  unfold format_o.
  assert (Hlog : 9 <= N.log2 n).
  { change 9 with (N.log2 512). apply N.log2_le_mono, Hn. }
  destruct (N.to_nat (N.log2 n)) as [|[|[|f]]] eqn:Hf; try lia.
  assert (H1 : 64 <= n / 8) by (apply div8_ge; lia).
  assert (H2 : 8 <= n / 8 / 8) by (apply div8_ge; exact H1).
  rewrite octal_digits_step by lia.
  rewrite octal_digits_step by (revert H1; generalize (n / 8); intros; lia).
  rewrite octal_digits_step by exact H2.
  rewrite !length_app. pose proof (octal_digits_nonempty f (n / 8 / 8 / 8)).
  cbn [length]. lia.
Qed.

Lemma format_03o_length (n : N) :
  (3 <= length (format_03o n))%nat /\ (length (format_03o n) = 3%nat <-> n <= 511).
Proof.
  split.
  - unfold format_03o. cbv zeta. rewrite length_app, repeat_length.
    unfold str, char. lia.
  - split.
    + intros Hlen. destruct (N.le_gt_cases n 511) as [H|H]; [exact H|].
      pose proof (format_03o_long n ltac:(lia)) as Hlong.
      rewrite Hlen in Hlong. lia.
    + intros Hn. rewrite format_03o_three_digits by exact Hn. reflexivity.
Qed.

Lemma not_key_lookup (ch : char) :
  ~ In ch [7; 8; 9; 10; 11; 12; 13; dq; sq; bs] ->
  dict_get simple_escape_sequence [ch] = None.
Proof.
  intros Hnot. rewrite simple_escape_sequence_single.
  repeat match goal with
         | |- context [if ?x =? ?y then _ else _] =>
             destruct (N.eqb_spec x y) as [->|?];
             [exfalso; apply Hnot; cbn; tauto|]
         end.
  reflexivity.
Qed.

(** X7.  For a character that is not one of the ten keys the table has for
    one character, [escape_char_to_octal] gives a backslash and the octal
    digits of the code point: at least three digits, exactly three up to
    0o777 and more above; the digits denote the code point. *)
Theorem escape_char_to_octal_denotes (ch : char) :
  ~ In ch [7; 8; 9; 10; 11; 12; 13; dq; sq; bs] ->
  exists digits,
    escape_char_to_octal ch = bs :: digits
    /\ Forall (fun d => 48 <= d <= 55) digits
    /\ octal_value digits = ch
    /\ (3 <= length digits)%nat
    /\ (length digits = 3%nat <-> ch <= 511).
Proof.
  intros Hnot. exists (format_03o ch).
  unfold escape_char_to_octal. rewrite (not_key_lookup ch Hnot).
  split; [reflexivity|].
  split; [apply format_03o_are_digits|].
  split; [apply format_03o_value|].
  apply format_03o_length.
Qed.

Lemma escape_char_to_octal_denotes_witness :
  exists digits,
    escape_char_to_octal 8364 = bs :: digits
    /\ Forall (fun d => 48 <= d <= 55) digits
    /\ octal_value digits = 8364
    /\ (3 <= length digits)%nat
    /\ (length digits = 3%nat <-> 8364 <= 511).
Proof.
  apply (escape_char_to_octal_denotes 8364).
  intros Hin. cbn in Hin.
  repeat (destruct Hin as [Hin|Hin]; [discriminate Hin|]). exact Hin.
Defined.

Lemma hex_digit_upper (d : N) :
  d < 16 -> 48 <= hex_digit d <= 57 \/ 65 <= hex_digit d <= 70.
Proof.
  intros Hd. unfold hex_digit. destruct (N.ltb_spec d 10); lia.
Qed.

Lemma hex_digit_value (d : N) :
  d < 16 ->
  (if hex_digit d <=? 57 then hex_digit d - 48 else hex_digit d - 55) = d.
Proof.
  intros Hd. unfold hex_digit. destruct (N.ltb_spec d 10).
  - destruct (N.leb_spec (48 + d) 57); lia.
  - destruct (N.leb_spec (55 + d) 57); lia.
Qed.

Lemma hex_value_snoc (d : str) (ch : char) :
  hex_value (d ++ [ch])
  = 16 * hex_value d + (if ch <=? 57 then ch - 48 else ch - 55).
Proof. unfold hex_value. rewrite fold_left_app. reflexivity. Qed.

Lemma hex_value_zeros (k : nat) (d : str) :
  hex_value (repeat 48 k ++ d) = hex_value d.
Proof.
  unfold hex_value. induction k as [|k IH]; [reflexivity|].
  cbn [repeat app fold_left]. exact IH.
Qed.

Lemma log2_div16 (n : N) : N.log2 (n / 16) = N.log2 n - 4.
Proof.
  change 16 with (2 ^ 4). rewrite <- N.shiftr_div_pow2. apply N.log2_shiftr.
Qed.

Lemma log2_ge16 (n : N) : 16 <= n -> 4 <= N.log2 n.
Proof. intros H. change 4 with (N.log2 16). apply N.log2_le_mono, H. Qed.

Lemma div16_lt (n k : N) : n < 16 * k -> n / 16 < k.
Proof. intros H. apply N.Div0.div_lt_upper_bound. exact H. Qed.

Lemma div16_ge (n k : N) : 16 * k <= n -> k <= n / 16.
Proof. intros H. apply N.div_le_lower_bound; [discriminate | exact H]. Qed.

(** The fuel of [format_X] is enough: the digits denote the number. *)
Lemma hex_digits_value (fuel : nat) :
  forall n, (N.to_nat (N.log2 n) < fuel)%nat ->
  hex_value (hex_digits fuel n) = n.
Proof.
  induction fuel as [|f IH]; intros n Hfuel; [lia|].
  cbn [hex_digits]. destruct (N.ltb_spec n 16) as [Hlt|Hge].
  - unfold hex_value; cbn [fold_left].
    rewrite (hex_digit_value n Hlt). reflexivity.
  - rewrite hex_value_snoc, IH.
    + rewrite hex_digit_value by (apply N.mod_lt; discriminate).
      symmetry. apply N.div_mod. discriminate.
    + rewrite log2_div16. pose proof (log2_ge16 n Hge). lia.
Qed.

Lemma format_02X_value (n : N) : hex_value (format_02X n) = n.
Proof.
  unfold format_02X. cbv zeta. rewrite hex_value_zeros.
  apply hex_digits_value. lia.
Qed.

Lemma hex_digits_upper (fuel : nat) :
  forall n,
    Forall (fun d => 48 <= d <= 57 \/ 65 <= d <= 70) (hex_digits fuel n).
Proof.
  induction fuel as [|f IH]; intros n; cbn [hex_digits]; [constructor|].
  destruct (N.ltb_spec n 16) as [Hlt|Hge].
  - constructor; [apply hex_digit_upper, Hlt | constructor].
  - apply Forall_app; split; [apply IH|].
    constructor; [|constructor].
    apply hex_digit_upper, N.mod_lt. discriminate.
Qed.

Lemma format_02X_upper (n : N) :
  Forall (fun d => 48 <= d <= 57 \/ 65 <= d <= 70) (format_02X n).
Proof.
  unfold format_02X, format_X. apply Forall_app; split.
  - apply Forall_forall. intros ch Hin. apply repeat_spec in Hin. lia.
  - apply hex_digits_upper.
Qed.

Lemma hex_digits_step (f : nat) (n : N) :
  16 <= n ->
  hex_digits (S f) n = hex_digits f (n / 16) ++ [hex_digit (n mod 16)].
Proof.
  intros Hn. cbn [hex_digits].
  destruct (N.ltb_spec n 16); [lia | reflexivity].
Qed.

Lemma hex_digits_nonempty (f : nat) (n : N) :
  (1 <= length (hex_digits (S f) n))%nat.
Proof.
  cbn [hex_digits]. destruct (n <? 16); [cbn; lia|].
  rewrite length_app. cbn. lia.
Qed.

Lemma format_X_length (n : N) :
  (1 <= length (format_X n))%nat
  /\ ((length (format_X n) <= 2)%nat <-> n <= 255).
Proof.
  unfold format_X. split; [apply hex_digits_nonempty|].
  destruct (N.ltb_spec n 16) as [H16|H16].
  - cbn [hex_digits]. apply N.ltb_lt in H16 as H16'. rewrite H16'.
    cbn [length]. split; lia.
  - pose proof (log2_ge16 n H16) as Hlog.
    destruct (N.to_nat (N.log2 n)) as [|f] eqn:Hf; [lia|].
    rewrite hex_digits_step, length_app by exact H16. cbn [length].
    pose proof (N.Div0.mul_div_le n 16) as Hle.
    pose proof (N.mul_succ_div_gt n 16 ltac:(discriminate)) as Hgt.
    destruct (N.ltb_spec (n / 16) 16) as [H256|H256].
    + cbn [hex_digits]. apply N.ltb_lt in H256 as H256'. rewrite H256'.
      cbn [length]. split; [intros _|lia].
      revert H256 Hgt. generalize (n / 16). intros q Hq Hgt. lia.
    + assert (Hlog2 : 8 <= N.log2 n).
      { change 8 with (N.log2 256). apply N.log2_le_mono.
        revert Hle H256. generalize (n / 16). intros q Hle Hq. lia. }
      destruct f as [|f]; [lia|].
      rewrite hex_digits_step, length_app by exact H256. cbn [length].
      pose proof (hex_digits_nonempty f (n / 16 / 16)) as Hne.
      split.
      * unfold str, char in *. lia.
      * intros Hn. exfalso.
        revert Hle H256. generalize (n / 16). intros q Hle Hq. lia.
Qed.

Lemma format_02X_length (n : N) :
  (2 <= length (format_02X n))%nat
  /\ (length (format_02X n) = 2%nat <-> n <= 255).
Proof.
  destruct (format_X_length n) as [Hne Hiff].
  unfold format_02X. cbv zeta. rewrite length_app, repeat_length.
  unfold str, char in *.
  split; [lia|]. rewrite <- Hiff. lia.
Qed.

(** X8.  [escape_char_to_hexadecimal] gives the same mnemonic as
    [escape_char_to_octal] for the ten keys the table has for one
    character; for every other character it gives a backslash, an x and
    the uppercase hexadecimal digits of the code point: at least two
    digits, exactly two up to 0xFF and more above; the digits denote the
    code point. *)
Theorem escape_char_to_hexadecimal_denotes (ch : char) :
  (In ch [7; 8; 9; 10; 11; 12; 13; dq; sq; bs] ->
   escape_char_to_hexadecimal ch = escape_char_to_octal ch)
  /\ (~ In ch [7; 8; 9; 10; 11; 12; 13; dq; sq; bs] ->
      exists digits,
        escape_char_to_hexadecimal ch = bs :: 120 :: digits
        /\ Forall (fun d => 48 <= d <= 57 \/ 65 <= d <= 70) digits
        /\ hex_value digits = ch
        /\ (2 <= length digits)%nat
        /\ (length digits = 2%nat <-> ch <= 255)).
Proof.
  split.
  - intros Hin. cbn [In] in Hin.
    repeat (destruct Hin as [<-|Hin]; [reflexivity|]). destruct Hin.
  - intros Hnot. exists (format_02X ch).
    unfold escape_char_to_hexadecimal. rewrite (not_key_lookup ch Hnot).
    split; [reflexivity|].
    split; [apply format_02X_upper|].
    split; [apply format_02X_value|].
    apply format_02X_length.
Qed.

Lemma escape_char_to_hexadecimal_denotes_witness :
  escape_char_to_hexadecimal 10 = escape_char_to_octal 10
  /\ exists digits,
       escape_char_to_hexadecimal 1 = bs :: 120 :: digits
       /\ Forall (fun d => 48 <= d <= 57 \/ 65 <= d <= 70) digits
       /\ hex_value digits = 1
       /\ (2 <= length digits)%nat
       /\ (length digits = 2%nat <-> 1 <= 255).
Proof.
  split.
  - apply (proj1 (escape_char_to_hexadecimal_denotes 10)). cbn. tauto.
  - apply (proj2 (escape_char_to_hexadecimal_denotes 1)).
    intros Hin. cbn in Hin.
    repeat (destruct Hin as [Hin|Hin]; [discriminate Hin|]). exact Hin.
Defined.

(** ** Escaping only what is not printable *)

Lemma escape_char_to_hexadecimal_printable (ch : char) :
  Forall in_printable_range (escape_char_to_hexadecimal ch).
Proof.
  unfold escape_char_to_hexadecimal.
  destruct (dict_get simple_escape_sequence [ch]) as [m|] eqn:E.
  - apply dict_get_value in E.
    assert (Hall : forallb (forallb printable_ascii)
                     (map snd simple_escape_sequence) = true)
      by reflexivity.
    rewrite forallb_forall in Hall. specialize (Hall m E).
    rewrite forallb_forall in Hall. apply Forall_forall.
    intros x Hx. apply printable_ascii_iff, Hall, Hx.
  - constructor; [auto with printable|].
    constructor; [unfold in_printable_range; lia|].
    eapply Forall_impl; [|apply format_02X_upper].
    unfold in_printable_range. intros d Hd. cbv beta in Hd. lia.
Qed.

Section Printable.

(** Any classification that takes the characters 0x20-0x7E for
    printable, as [str.isprintable] does. *)
Variable isprintable : char -> bool.
Hypothesis ascii_printable :
  forall ch, in_printable_range ch -> isprintable ch = true.

Lemma all_isprintable (s : str) :
  Forall in_printable_range s -> forallb isprintable s = true.
Proof.
  intros H. apply forallb_forall. intros ch Hin.
  rewrite Forall_forall in H. apply ascii_printable, H, Hin.
Qed.

(** X9.  Whatever the character, every character of what
    [escape_non_printable_char_to_octal] and
    [escape_non_printable_char_to_hexadecimal] return is printable: a
    printable character is returned as it is, and the escape of any other
    is made of characters in 0x20-0x7E. *)
Theorem escape_non_printable_gives_printable (ch : char) :
  forallb isprintable (escape_non_printable_char_to_octal isprintable ch)
  = true
  /\ forallb isprintable
       (escape_non_printable_char_to_hexadecimal isprintable ch)
     = true.
Proof.
  unfold escape_non_printable_char_to_octal,
    escape_non_printable_char_to_hexadecimal.
  destruct (isprintable ch) eqn:E.
  - cbn [forallb]. rewrite E. split; reflexivity.
  - split; apply all_isprintable.
    + apply escape_char_to_octal_printable.
    + apply escape_char_to_hexadecimal_printable.
Qed.

End Printable.

Lemma escape_non_printable_gives_printable_witness :
  forallb printable_ascii
    (escape_non_printable_char_to_octal printable_ascii 233) = true
  /\ forallb printable_ascii
       (escape_non_printable_char_to_hexadecimal printable_ascii 233) = true.
Proof.
  apply (escape_non_printable_gives_printable printable_ascii).
  intros ch Hch. apply printable_ascii_iff, Hch.
Defined.

(** ** The styles that quote only when needed *)

Lemma c_maybe_printable (s : str) : Forall in_printable_range (c_maybe s).
Proof.
  rewrite c_maybe_cases. destruct (needs_c_escaping s) eqn:E.
  - rewrite c_passes. apply Forall_app; split; [|apply Forall_app; split];
      auto with printable.
    apply guard_trigraphs_printable, escape_outside_printable_printable.
  - unfold needs_c_escaping in E. apply orb_false_iff in E as [E _].
    apply Forall_forall. intros ch Hin.
    pose proof (existsb_false _ _ E ch Hin) as Hch. cbv beta in Hch.
    apply orb_false_iff in Hch as [_ Hp].
    apply printable_ascii_iff. destruct (printable_ascii ch);
      [reflexivity | discriminate Hp].
Qed.

Lemma flat_map_length_ge (f : char -> str) (s : str) :
  (forall ch, (1 <= length (f ch))%nat) ->
  (length s <= length (flat_map f s))%nat.
Proof.
  intros Hf. induction s as [|a s IH]; [apply le_n|].
  cbn [flat_map length]. rewrite length_app.
  specialize (Hf a). unfold str, char in *. lia.
Qed.

Lemma guard_trigraphs_length_ge (s : str) :
  (length s <= length (guard_trigraphs s))%nat.
Proof.
  induction s as [|a t IHt IHrest] using trigraph_scan_ind; [apply le_n|].
  rewrite guard_trigraphs_cons.
  destruct t as [|b [|x rest]]; try (cbn [length] in *; lia).
  specialize (IHrest b x rest eq_refl).
  destruct ((a =? qm) && (b =? qm) && trigraph_third x);
    cbn [app length] in *; unfold str, char in *; lia.
Qed.

Lemma c_token_nonempty (ch : char) : (1 <= length (c_token ch))%nat.
Proof.
  destruct (c_token_shape ch) as [->|(w & -> & _)]; cbn [length]; lia.
Qed.

Lemma c_longer (s : str) : (length s + 2 <= length (c s))%nat.
Proof.
  rewrite c_passes, c_tokens, !length_app. cbn [length].
  pose proof (guard_trigraphs_length_ge (flat_map c_token s)).
  pose proof (flat_map_length_ge c_token s c_token_nonempty).
  unfold str, char in *. lia.
Qed.

Lemma shell_always_longer (s : str) :
  (length s + 2 <= length (shell_always s))%nat.
Proof.
  rewrite shell_always_flat_map, !length_app. cbn [length].
  match goal with
  | |- context [flat_map ?f s] =>
      pose proof (flat_map_length_ge f s) as H
  end.
  cbv beta in H.
  assert (Hle := H ltac:(intros ch; destruct (ch =? sq); cbn; lia)).
  unfold str, char in *. lia.
Qed.

Lemma longer_differs (s t : str) : (length s + 2 <= length t)%nat -> t <> s.
Proof. intros H ->. lia. Qed.

(** X10.  [shell] and [c_maybe] return the line unchanged exactly when
    their test finds nothing to quote: when it finds something the result
    is at least two characters longer than the line.  What [c_maybe]
    returns is in the range 0x20-0x7E in both cases. *)
Theorem unchanged_iff_nothing_to_quote (s : str) :
  (shell s = s <-> existsb is_posix_special s = false)
  /\ (c_maybe s = s <-> needs_c_escaping s = false)
  /\ Forall in_printable_range (c_maybe s).
Proof.
  split; [|split; [|apply c_maybe_printable]].
  - rewrite shell_cases. destruct (existsb is_posix_special s).
    + split; [|discriminate]. intros H.
      destruct (longer_differs s _ (shell_always_longer s) H).
    + split; reflexivity.
  - rewrite c_maybe_cases. destruct (needs_c_escaping s).
    + split; [|discriminate]. intros H.
      destruct (longer_differs s _ (c_longer s) H).
    + split; reflexivity.
Qed.

Lemma unchanged_iff_nothing_to_quote_witness :
  shell (u "one-word") = u "one-word" /\ needs_c_escaping (u "a b") = false.
Proof.
  split.
  - apply (proj1 (unchanged_iff_nothing_to_quote (u "one-word"))). reflexivity.
  - apply (proj1 (proj2 (unchanged_iff_nothing_to_quote (u "a b")))).
    reflexivity.
Defined.

(** ** The two ways of reading the input *)

Section Records.

(** The delimiter: one character, newline or NUL in the program. *)
Variable d : char.

Lemma rstrip_no_delimiter (r : str) :
  existsb (N.eqb d) r = false -> str_rstrip r [d] = r.
Proof.
  induction r as [|a r IH]; [reflexivity|].
  cbn [existsb]. intros H. apply orb_false_iff in H as [Ha Hr].
  cbn [str_rstrip]. rewrite (IH Hr).
  destruct r; [|reflexivity].
  cbn [existsb]. rewrite N.eqb_sym, Ha. reflexivity.
Qed.

Lemma rstrip_terminated (r : str) :
  existsb (N.eqb d) r = false -> str_rstrip (r ++ [d]) [d] = r.
Proof.
  induction r as [|a r IH].
  - intros _. cbn. rewrite N.eqb_refl. reflexivity.
  - cbn [existsb]. intros H. apply orb_false_iff in H as [Ha Hr].
    cbn [app str_rstrip]. rewrite (IH Hr).
    destruct r; [|reflexivity].
    cbn [existsb]. rewrite N.eqb_sym, Ha. reflexivity.
Qed.

Lemma split_no_delimiter (tail : str) :
  existsb (N.eqb d) tail = false -> split_from [d] 0 tail = [tail].
Proof.
  induction tail as [|a tail IH]; [reflexivity|].
  cbn [existsb]. intros H. apply orb_false_iff in H as [Ha Ht].
  cbn [split_from starts_with]. rewrite Ha, (IH Ht). reflexivity.
Qed.

Lemma split_terminated (r rest : str) :
  existsb (N.eqb d) r = false ->
  split_from [d] 0 (r ++ [d] ++ rest) = r :: split_from [d] 0 rest.
Proof.
  induction r as [|a r IH].
  - intros _. cbn [app split_from starts_with length Nat.sub].
    rewrite N.eqb_refl. reflexivity.
  - cbn [existsb]. intros H. apply orb_false_iff in H as [Ha Hr].
    cbn [app split_from starts_with]. rewrite Ha.
    cbn [app] in IH. rewrite (IH Hr). reflexivity.
Qed.

Lemma split_records (recs : list str) (tail : str) :
  Forall (fun r => existsb (N.eqb d) r = false) recs ->
  existsb (N.eqb d) tail = false ->
  split_from [d] 0 (flat_map (fun r => r ++ [d]) recs ++ tail)
  = recs ++ [tail].
Proof.
  intros Hrecs Htail. induction Hrecs as [|r recs Hr _ IH].
  - apply split_no_delimiter, Htail.
  - cbn [flat_map app]. rewrite <- !app_assoc.
    rewrite split_terminated by exact Hr. rewrite IH. reflexivity.
Qed.

(** Every text is a sequence of terminated records and a last piece,
    none of which holds the delimiter. *)
Lemma records_of (data : str) :
  exists recs tail,
    data = flat_map (fun r => r ++ [d]) recs ++ tail
    /\ Forall (fun r => existsb (N.eqb d) r = false) recs
    /\ existsb (N.eqb d) tail = false.
Proof.
  induction data as [|a data (recs & tail & -> & Hrecs & Htail)].
  - exists [], []. repeat split. constructor.
  - destruct (N.eqb_spec d a) as [<-|Ha].
    + exists ([] :: recs), tail. repeat split; [|exact Htail].
      constructor; [reflexivity | exact Hrecs].
    + apply N.eqb_neq in Ha. destruct recs as [|r recs].
      * exists [], (a :: tail). repeat split; [constructor|].
        cbn [existsb]. rewrite Ha. exact Htail.
      * inversion Hrecs as [|r' recs' Hr Hrs]; subst.
        exists ((a :: r) :: recs), tail. repeat split; [|exact Htail].
        constructor; [|exact Hrs]. cbn [existsb]. rewrite Ha. exact Hr.
Qed.

Lemma quoted_terminated (f : str -> str) (recs : list str) :
  Forall (fun r => existsb (N.eqb d) r = false) recs ->
  flat_map (fun line => f (str_rstrip line [d]) ++ [d])
    (map (fun r => r ++ [d]) recs)
  = flat_map (fun r => f r ++ [d]) recs.
Proof.
  induction 1 as [|r rs Hr _ IH]; [reflexivity|].
  cbn [map flat_map]. rewrite rstrip_terminated by exact Hr.
  rewrite IH. reflexivity.
Qed.

Lemma quoted_whole (f : str -> str) (recs : list str) :
  Forall (fun r => existsb (N.eqb d) r = false) recs ->
  flat_map (fun line => f (str_rstrip line [d]) ++ [d]) recs
  = flat_map (fun r => f r ++ [d]) recs.
Proof.
  induction 1 as [|r rs Hr _ IH]; [reflexivity|].
  cbn [flat_map]. rewrite rstrip_no_delimiter by exact Hr.
  rewrite IH. reflexivity.
Qed.

Lemma last_piece_whole (tail : str) :
  existsb (N.eqb d) tail = false ->
  Forall (fun r => existsb (N.eqb d) r = false) (last_piece tail).
Proof.
  intros H. destruct tail; repeat constructor. exact H.
Qed.

Variable quoting_style : str.
Variable quote_function : str -> str.
Hypothesis registered :
  dict_get quoting_style_to_function_map quoting_style = Some quote_function.

Variable recs : list str.
Variable tail : str.
Hypothesis recs_whole :
  Forall (fun r => existsb (N.eqb d) r = false) recs.
Hypothesis tail_whole : existsb (N.eqb d) tail = false.

Lemma quote_lines_of_records :
  quote_lines quoting_style [d]
    (map (fun r => r ++ [d]) recs ++ last_piece tail)
  = Some (flat_map (fun r => quote_function r ++ [d])
            (recs ++ last_piece tail)).
Proof.
  unfold quote_lines. rewrite registered. f_equal.
  rewrite !flat_map_app. f_equal.
  - apply quoted_terminated, recs_whole.
  - apply quoted_whole, last_piece_whole, tail_whole.
Qed.

Lemma quote_file_data_of_records :
  quote_file_data quoting_style [d]
    (flat_map (fun r => r ++ [d]) recs ++ tail)
  = Some (flat_map (fun r => quote_function r ++ [d])
            (recs ++ last_piece tail)).
Proof.
  unfold quote_file_data, str_split.
  rewrite split_records by assumption.
  rewrite last_last, removelast_last.
  unfold quote_lines. rewrite registered. f_equal.
  destruct tail as [|a t] eqn:E; cbn [length Nat.eqb last_piece].
  - rewrite app_nil_r. apply quoted_whole, recs_whole.
  - apply quoted_whole. apply Forall_app. split; [exact recs_whole|].
    repeat constructor. exact tail_whole.
Qed.

End Records.

(** X11.  For a registered style and a one-character delimiter, the two
    ways of reading give the same output: whether the input comes as
    lines that end with the delimiter ([quote_lines]) or as one text to be
    split ([quote_file_data]), each record is quoted whole, nothing but
    its delimiter removed, and written with the delimiter after it, in
    order; a last record without delimiter is quoted and terminated too,
    and an empty last piece gives no record. *)
Theorem records_quoted_in_order
    (d : char) (quoting_style : str) (quote_function : str -> str)
    (recs : list str) (tail : str) :
  dict_get quoting_style_to_function_map quoting_style = Some quote_function ->
  Forall (fun r => existsb (N.eqb d) r = false) recs ->
  existsb (N.eqb d) tail = false ->
  quote_lines quoting_style [d]
    (map (fun r => r ++ [d]) recs ++ last_piece tail)
  = Some (flat_map (fun r => quote_function r ++ [d])
            (recs ++ last_piece tail))
  /\ quote_file_data quoting_style [d]
       (flat_map (fun r => r ++ [d]) recs ++ tail)
     = Some (flat_map (fun r => quote_function r ++ [d])
               (recs ++ last_piece tail)).
Proof.
  intros Hstyle Hrecs Htail. split.
  - apply quote_lines_of_records; assumption.
  - apply quote_file_data_of_records; assumption.
Qed.

Lemma records_quoted_in_order_witness :
  quote_lines (u "shell") [0] [u "a b" ++ [0]; [0]; u "c"]
  = Some (u "'a b'" ++ [0; 0] ++ u "c" ++ [0])
  /\ quote_file_data (u "shell") [0] (u "a b" ++ [0; 0] ++ u "c")
     = Some (u "'a b'" ++ [0; 0] ++ u "c" ++ [0]).
Proof.
  apply (records_quoted_in_order 0 (u "shell") shell [u "a b"; []] (u "c")).
  - reflexivity.
  - repeat constructor.
  - reflexivity.
Defined.

Lemma terminated_app (d : char) (f : str -> str) (recs : list str) (r : str) :
  flat_map (fun r => f r ++ [d]) (recs ++ [r])
  = flat_map (fun r => f r ++ [d]) recs ++ f r ++ [d].
Proof. rewrite flat_map_app. cbn [flat_map]. rewrite app_nil_r. reflexivity. Qed.

(** X12.  With the literal style [quote_file_data] copies its input: an
    empty input gives no output, an input that ends with the delimiter is
    written as it is, and an input that ends with another character is
    written with one delimiter added. *)
Theorem literal_copies_input (d x : char) (data : str) :
  quote_file_data (u "literal") [d] [] = Some []
  /\ quote_file_data (u "literal") [d] (data ++ [d]) = Some (data ++ [d])
  /\ (x <> d ->
      quote_file_data (u "literal") [d] (data ++ [x])
      = Some (data ++ [x] ++ [d])).
Proof.
  split; [reflexivity|].
  destruct (records_of d data) as (recs & tail & -> & Hrecs & Htail).
  split.
  - replace ((flat_map (fun r => r ++ [d]) recs ++ tail) ++ [d])
      with (flat_map (fun r => r ++ [d]) (recs ++ [tail]) ++ [])
      by (rewrite (terminated_app d (fun r => r)), app_nil_r, <- app_assoc;
          reflexivity).
    rewrite (quote_file_data_of_records d (u "literal") literal eq_refl).
    + cbn [last_piece]. rewrite !app_nil_r. reflexivity.
    + apply Forall_app. split; [exact Hrecs | repeat constructor; exact Htail].
    + reflexivity.
  - intros Hx. rewrite <- app_assoc.
    rewrite (quote_file_data_of_records d (u "literal") literal eq_refl).
    + replace (last_piece (tail ++ [x])) with [tail ++ [x]]
        by (destruct tail; reflexivity).
      rewrite (terminated_app d literal). unfold literal.
      rewrite <- !app_assoc. reflexivity.
    + exact Hrecs.
    + rewrite existsb_app. apply orb_false_iff. split; [exact Htail|].
      cbn [existsb]. rewrite orb_false_r. apply N.eqb_neq. congruence.
Qed.

Lemma literal_copies_input_witness :
  quote_file_data (u "literal") [0] (u "a" ++ [0] ++ u "b")
  = Some (u "a" ++ [0] ++ u "b" ++ [0]).
Proof.
  apply (proj2 (proj2 (literal_copies_input 0 98 (u "a" ++ [0])))).
  discriminate.
Defined.

(** ** The style is validated before any line is quoted *)

Lemma list_in_In (x : str) (l : list str) : list_in x l = true <-> In x l.
Proof.
  unfold list_in. rewrite existsb_exists. split.
  - intros [y [Hin Heq]]. apply str_eqb_eq in Heq. subst. exact Hin.
  - intros Hin. exists x. split; [exact Hin | apply str_eqb_eq; reflexivity].
Qed.

Lemma In_insert_sorted (x y : str) (l : list str) :
  In y (insert_sorted x l) <-> y = x \/ In y l.
Proof.
  induction l as [|z l IH]; cbn [insert_sorted In].
  - intuition.
  - destruct (str_leb x z); cbn [In]; [intuition|]. rewrite IH. intuition.
Qed.

Lemma In_sorted (y : str) (l : list str) : In y (sorted l) <-> In y l.
Proof.
  induction l as [|x l IH]; [reflexivity|].
  unfold sorted in *. cbn [fold_right In].
  rewrite In_insert_sorted, IH. intuition.
Qed.

Lemma dict_get_present {V : Type} (dict : list (str * V)) (k : str) :
  In k (map fst dict) -> exists v, dict_get dict k = Some v.
Proof.
  induction dict as [|[k' v'] dict IH]; cbn [map In dict_get fst];
    [contradiction|].
  intros H. destruct (str_eqb k k') eqn:E; [eexists; reflexivity|].
  destruct H as [H|H]; [|exact (IH H)].
  subst k'. assert (Hrefl : str_eqb k k = true) by (apply str_eqb_eq; reflexivity).
  rewrite Hrefl in E. discriminate E.
Qed.

Lemma options_loop_proceeds (linesep : str) (options : list (str * str)) :
  forall quoting_style delimiter style delim,
    delimiter = linesep \/ delimiter = [0] ->
    options_loop quoting_style delimiter options = Proceed style delim ->
    list_in style valid_quoting_styles = true
    /\ (delim = linesep \/ delim = [0]).
Proof.
  induction options as [|[option value] rest IH];
    intros quoting_style delimiter style delim Hdel; cbn [options_loop].
  - destruct (list_in quoting_style valid_quoting_styles) eqn:E;
      cbn [negb]; [|discriminate].
    intros [= <- <-]. split; [exact E | exact Hdel].
  - destruct (list_in option [u "-V"; u "--version"]); [discriminate|].
    destruct (list_in option [u "-h"; u "--help"]); [discriminate|].
    destruct (list_in option [u "-q"; u "--quoting-style"]);
      [apply IH, Hdel|].
    destruct (list_in option [u "-0"; u "--null"]); [|discriminate].
    apply IH. right. reflexivity.
Qed.

(** X13.  When the options are accepted, the style that [main] goes on
    with is a key of the registry and the delimiter is the line separator
    or NUL: the lookup of [quote_lines] finds its function for whatever
    lines come, [quote_file_data] splits at a delimiter that is not
    empty, and [quote] with that style applies the function of the style,
    never its fallback. *)
Theorem accepted_style_is_registered
    (linesep : str) (options : list (str * str)) (style delim : str) :
  configure linesep options = Proceed style delim ->
  (exists quote_function,
     dict_get quoting_style_to_function_map style = Some quote_function
     /\ forall s, quote s style = quote_function s)
  /\ (delim = linesep \/ delim = [0])
  /\ (forall lines, quote_lines style delim lines <> None)
  /\ (forall data, quote_file_data style [0] data <> None).
Proof.
  unfold configure, default_delimiter. intros H.
  apply (options_loop_proceeds linesep) in H as [Hvalid Hdel];
    [|left; reflexivity].
  apply list_in_In in Hvalid. unfold valid_quoting_styles in Hvalid.
  apply In_sorted, dict_get_present in Hvalid as [f Hf].
  split; [|split; [exact Hdel|split]].
  - exists f. split; [exact Hf|]. intros s. unfold quote. rewrite Hf.
    reflexivity.
  - intros lines. unfold quote_lines. rewrite Hf. discriminate.
  - intros data. unfold quote_file_data, str_split, quote_lines.
    rewrite Hf. discriminate.
Qed.

Lemma accepted_style_is_registered_witness :
  (exists quote_function,
     dict_get quoting_style_to_function_map (u "c-maybe") = Some quote_function
     /\ forall s, quote s (u "c-maybe") = quote_function s)
  /\ ([0] = [10] \/ [0] = [0])
  /\ (forall lines, quote_lines (u "c-maybe") [0] lines <> None)
  /\ (forall data, quote_file_data (u "c-maybe") [0] data <> None).
Proof.
  apply (accepted_style_is_registered [10]
           [(u "-q", u "shell"); (u "--null", []);
            (u "--quoting-style", u "c-maybe")]).
  reflexivity.
Defined.
